(** * The request pipeline of the TripAdvisor client, and its configuration store

    A shallow embedding of [src/errors.ts], [src/config.ts] and
    [src/http-client.ts].  JavaScript values, the error classes, the
    configuration manager (with its object store, because [getConfig] hands
    out a fresh object), the URL builder and the retry loop are transcribed
    from the TypeScript; the properties of the specification are proved
    about these transcriptions. *)

From Stdlib Require Import ZArith String Ascii List Bool Lia.
From stdpp Require Import gmap strings list pretty.
Import ListNotations.
Local Open Scope string_scope.
Local Open Scope Z_scope.
Set Warnings "-register-all".

(* ===================================================================== *)
(** ** JavaScript values *)
(* ===================================================================== *)

Module JS.

(** The values a decoded JSON body or a request payload is made of.
    Numbers are the integer-valued ones: the pipeline only tests a number
    for truthiness and prints it in decimal.  [ToString] below writes all
    the digits, which is the text JavaScript gives for the integers it
    holds exactly (those below 2^53 in absolute value); statements that pin
    the text of a number assume that range.  An object is the list of its
    own enumerable properties in the order [Object.entries] yields them. *)
Inductive value : Type :=
| VUndefined
| VNull
| VBool (b : bool)
| VNum (n : Z)
| VStr (s : string)
| VArr (items : list value)
| VObj (fields : list (string * value)).

(** [Record<string, unknown>]: the properties of an object, in order. *)
Definition record : Type := list (string * value).

(** ToBoolean: [!!v]. *)
Definition truthy (v : value) : bool :=
  match v with
  | VUndefined | VNull => false
  | VBool b => b
  | VNum n => negb (n =? 0)
  | VStr s => negb (String.eqb s "")
  | VArr _ | VObj _ => true
  end.

(** [a || b] yields [a] when it is truthy and [b] otherwise. *)
Definition or_else (a b : value) : value := if truthy a then a else b.

(** [typeof v === 'object' && v !== null]. *)
Definition is_object (v : value) : bool :=
  match v with
  | VArr _ | VObj _ => true
  | _ => false
  end.

Fixpoint assoc (k : string) (fs : list (string * value)) : value :=
  match fs with
  | [] => VUndefined
  | (k', v) :: rest => if String.eqb k k' then v else assoc k rest
  end.

(** [o?.k] for the property names the client reads ([error], [Message],
    [message], [code], [type]): none of them lives on a prototype, so
    anything but an object holding the key answers [undefined]. *)
Definition get (o : value) (k : string) : value :=
  match o with
  | VObj fs => assoc k fs
  | _ => VUndefined
  end.

Fixpoint join (sep : string) (parts : list string) : string :=
  match parts with
  | [] => ""
  | [p] => p
  | p :: rest => p ++ sep ++ join sep rest
  end.

(** ToString, which is also what [v.toString()] and a template literal
    produce.  An array joins its items with commas, printing [null] and
    [undefined] items as the empty string. *)
Fixpoint ToString (v : value) : string :=
  match v with
  | VUndefined => "undefined"
  | VNull => "null"
  | VBool true => "true"
  | VBool false => "false"
  | VNum n => pretty n
  | VStr s => s
  | VArr items =>
      join ","
        ((fix each (l : list value) : list string :=
            match l with
            | [] => []
            | VUndefined :: l' => "" :: each l'
            | VNull :: l' => "" :: each l'
            | x :: l' => ToString x :: each l'
            end) items)
  | VObj _ => "[object Object]"
  end.

(** [s.includes(needle)]. *)
Fixpoint includes (needle s : string) : bool :=
  String.prefix needle s
  || match s with
     | EmptyString => false
     | String _ rest => includes needle rest
     end.

Definition is_digit (c : ascii) : bool :=
  let n := N_of_ascii c in ((48 <=? n) && (n <=? 57))%N.

(** [/^5\d{2}/.test(s)]: the text starts with a 5 and two more digits. *)
Definition starts_with_5xx (s : string) : bool :=
  match s with
  | String c0 (String c1 (String c2 _)) =>
      Ascii.eqb c0 "5" && is_digit c1 && is_digit c2
  | _ => false
  end.

End JS.

Import JS.

(* ===================================================================== *)
(** ** The error classes ([errors.ts]) *)
(* ===================================================================== *)

Module Errors.

(** What a [catch] clause of the client can receive.  [JsError] stands for
    the built-in [Error] and the errors the platform raises ([TypeError]
    from [fetch], the [AbortError] of an aborted exchange, [SyntaxError]
    from [json()]); the other three are the classes [errors.ts] declares.
    The file declares no class for transport failures. *)
Inductive error : Type :=
| JsError (name message : string)
| TripAdvisorError (message : string) (code type : value) (isApiError : bool)
| ConfigurationError (message : string)
| ValidationError (message : string).

Definition name (e : error) : string :=
  match e with
  | JsError n _ => n
  | TripAdvisorError _ _ _ _ => "TripAdvisorError"
  | ConfigurationError _ => "ConfigurationError"
  | ValidationError _ => "ValidationError"
  end.

Definition message (e : error) : string :=
  match e with
  | JsError _ m => m
  | TripAdvisorError m _ _ _ => m
  | ConfigurationError m => m
  | ValidationError m => m
  end.

(** [new TripAdvisorError(message, code, type, isApiError)]: [super(message)]
    stores ToString of the message, and nothing for [undefined]. *)
Definition new_TripAdvisorError (msg code type : value) (flag : bool) : error :=
  TripAdvisorError
    (match msg with VUndefined => "" | _ => ToString msg end) code type flag.

Definition fromApiResponse (response : value) : error :=
  let err := get response "error" in
  if truthy err && is_object err then
    new_TripAdvisorError
      (or_else (get err "message") (VStr "Unknown API error"))
      (get err "code") (get err "type") true
  else if truthy (get response "Message") then
    new_TripAdvisorError
      (get response "Message") (get response "code") (get response "type") true
  else
    new_TripAdvisorError (VStr "Unknown API error") VUndefined VUndefined true.

Definition isApiError (response : value) : bool :=
  truthy (or_else (get response "error") (get response "Message")).

End Errors.

Import Errors.

(* ===================================================================== *)
(** ** The configuration manager ([config.ts]) *)
(* ===================================================================== *)

Module Config.

(** An optional property of an object: missing, or present, and then
    possibly holding [undefined] (the [None] inside).  Object spread tells
    the two apart: a property present with [undefined] overrides. *)
Inductive prop (T : Type) : Type :=
| Absent
| Present (v : option T).
Arguments Absent {T}.
Arguments Present {T} v.

(** Reading [o.k]. *)
Definition read {T} (p : prop T) : option T :=
  match p with
  | Absent => None
  | Present v => v
  end.

(** One property of [{ ...a, ...b }]. *)
Definition over {T} (a b : prop T) : prop T :=
  match b with
  | Absent => a
  | Present _ => b
  end.

(** [Partial<TripAdvisorConfig>]. *)
Record PartialConfig : Type := {
  apiKey_opt : prop string;
  baseUrl_opt : prop string;
  language_opt : prop string;
  currency_opt : prop string;
  timeout_opt : prop Z;
  retries_opt : prop Z;
  retryDelay_opt : prop Z
}.

(** [TripAdvisorConfig]: the key is mandatory, the rest optional. *)
Record TripAdvisorConfig : Type := {
  apiKey : string;
  baseUrl : prop string;
  language : prop string;
  currency : prop string;
  timeout : prop Z;
  retries : prop Z;
  retryDelay : prop Z
}.

Definition DEFAULT_CONFIG : PartialConfig := {|
  apiKey_opt := Absent;
  baseUrl_opt := Present (Some "https://api.content.tripadvisor.com/api/v1");
  language_opt := Present (Some "en");
  currency_opt := Present (Some "USD");
  timeout_opt := Present (Some 30000);
  retries_opt := Present (Some 3);
  retryDelay_opt := Present (Some 1000)
|}.

(** [{ ...a, ...b }]. *)
Definition spread (a b : PartialConfig) : PartialConfig := {|
  apiKey_opt := over (apiKey_opt a) (apiKey_opt b);
  baseUrl_opt := over (baseUrl_opt a) (baseUrl_opt b);
  language_opt := over (language_opt a) (language_opt b);
  currency_opt := over (currency_opt a) (currency_opt b);
  timeout_opt := over (timeout_opt a) (timeout_opt b);
  retries_opt := over (retries_opt a) (retries_opt b);
  retryDelay_opt := over (retryDelay_opt a) (retryDelay_opt b)
|}.

(** A stored configuration seen as an object to spread. *)
Definition as_partial (c : TripAdvisorConfig) : PartialConfig := {|
  apiKey_opt := Present (Some (apiKey c));
  baseUrl_opt := baseUrl c;
  language_opt := language c;
  currency_opt := currency c;
  timeout_opt := timeout c;
  retries_opt := retries c;
  retryDelay_opt := retryDelay c
|}.

(** [{ ...p, apiKey }]. *)
Definition with_apiKey (p : PartialConfig) (k : string) : TripAdvisorConfig := {|
  apiKey := k;
  baseUrl := baseUrl_opt p;
  language := language_opt p;
  currency := currency_opt p;
  timeout := timeout_opt p;
  retries := retries_opt p;
  retryDelay := retryDelay_opt p
|}.

(** [a || b] on [string | undefined]: the empty string is falsy too. *)
Definition str_or (a b : option string) : option string :=
  match a with
  | Some s => if String.eqb s "" then b else a
  | None => b
  end.

Definition key_required : string :=
  "TripAdvisor API key is required. Set TRIPADVISOR_API_KEY environment variable or pass apiKey in config.".

(** [env] is [process.env.TRIPADVISOR_API_KEY]; [None] as the argument is
    the omitted [config]. *)
Definition validateAndMergeConfig (env : option string) (cfg : option PartialConfig)
  : error + TripAdvisorConfig :=
  let apiKey := str_or (from_option (fun c => read (apiKey_opt c)) None cfg) env in
  let merged (k : string) :=
    with_apiKey
      (match cfg with
       | Some c => spread DEFAULT_CONFIG c
       | None => DEFAULT_CONFIG
       end) k in
  match apiKey with
  | None => inl (ConfigurationError key_required)
  | Some k =>
      if String.eqb k "" then inl (ConfigurationError key_required)
      else inr (merged k)
  end.

(** The object store.  A [ConfigManager] holds a reference to its
    configuration object; [getConfig] allocates a new object. *)
Abbreviation ref := positive.
Abbreviation heap := (gmap positive TripAdvisorConfig).

Record ConfigManager : Type := { config : ref }.

Definition alloc (o : TripAdvisorConfig) (h : heap) : ref * heap :=
  let l := fresh (dom h) in (l, <[l := o]> h).

(** [new ConfigManager(cfg)]. *)
Definition new_ConfigManager (env : option string) (cfg : option PartialConfig) (h : heap)
  : error + (ConfigManager * heap) :=
  match validateAndMergeConfig env cfg with
  | inl e => inl e
  | inr c => let '(l, h') := alloc c h in inr ({| config := l |}, h')
  end.

(** [return { ...this.config }].  [None] only for a manager whose
    reference is not in the store, which no run produces. *)
Definition getConfig (m : ConfigManager) (h : heap) : option (ref * heap) :=
  o ← h !! config m; Some (alloc o h).

(** [this.config = this.validateAndMergeConfig({ ...this.config, ...updates })].
    A throw leaves the assignment undone. *)
Definition updateConfig (env : option string) (updates : PartialConfig)
    (m : ConfigManager) (h : heap)
  : option ((error + unit) * ConfigManager * heap) :=
  o ← h !! config m;
  match validateAndMergeConfig env (Some (spread (as_partial o) updates)) with
  | inl e => Some (inl e, m, h)
  | inr c => let '(l, h') := alloc c h in Some (inr tt, {| config := l |}, h')
  end.

Definition getApiKey (m : ConfigManager) (h : heap) : option string :=
  apiKey <$> h !! config m.

(** The other getters, on the object the manager refers to; [None] is the
    [undefined] that a missing or overridden property reads as. *)
Definition getBaseUrl (c : TripAdvisorConfig) : option string := read (baseUrl c).
Definition getLanguage (c : TripAdvisorConfig) : option string := read (language c).
Definition getCurrency (c : TripAdvisorConfig) : option string := read (currency c).
Definition getTimeout (c : TripAdvisorConfig) : option Z := read (timeout c).
Definition getRetries (c : TripAdvisorConfig) : option Z := read (retries c).
Definition getRetryDelay (c : TripAdvisorConfig) : option Z := read (retryDelay c).

(** Assigning to properties of the object behind a reference. *)
Definition mutate (r : ref) (f : TripAdvisorConfig -> TripAdvisorConfig) (h : heap) : heap :=
  alter f r h.

Definition only_apiKey (k : string) : PartialConfig :=
  {| apiKey_opt := Present (Some k); baseUrl_opt := Absent; language_opt := Absent;
     currency_opt := Absent; timeout_opt := Absent; retries_opt := Absent;
     retryDelay_opt := Absent |}.

End Config.

Import Config.

(* ===================================================================== *)
(** ** Validation schemas *)
(* ===================================================================== *)

Module Zod.

(** A [z.ZodSchema] as the client uses it: [parse] returns the validated
    value or throws; [inl] carries the text the thrown error prints as. *)
Record ZodSchema (O : Type) : Type := { parse : value -> string + O }.
Arguments parse {O} _ _.

Inductive ftype : Type := TString | TNumber | TBoolean | TAny.

Inductive marking : Type :=
| Required
| Optional
| Default (v : value).

Record field_spec : Type := { fname : string; fty : ftype; fmark : marking }.

Record shape : Type := { fields : list field_spec; forbids_unknown : bool }.

Definition has_type (t : ftype) (v : value) : bool :=
  match t, v with
  | TString, VStr _ => true
  | TNumber, VNum _ => true
  | TBoolean, VBool _ => true
  | TAny, _ => true
  | _, _ => false
  end.

(** Checks the declared fields in turn; yields the defaults to add. *)
Fixpoint check_fields (fs : list field_spec) (input : record) : string + record :=
  match fs with
  | [] => inr []
  | f :: rest =>
      match assoc (fname f) input, fmark f with
      | VUndefined, Required => inl ("Required: " ++ fname f)
      | VUndefined, Optional => check_fields rest input
      | VUndefined, Default d =>
          match check_fields rest input with
          | inl z => inl z
          | inr added => inr ((fname f, d) :: added)
          end
      | v, _ =>
          if has_type (fty f) v then check_fields rest input
          else inl ("Invalid type: " ++ fname f)
      end
  end.

Definition declared (sh : shape) (k : string) : bool :=
  existsb (fun f => String.eqb (fname f) k) (fields sh).

(** Modelled from the spec: the schema library (zod) is a dependency whose
    code is not among the sources, so an object shape is interpreted as
    section 4.2 words it: a missing required field fails, a type mismatch
    fails, a declared default is applied when the field is absent, and
    unknown fields pass through unchanged unless the shape forbids them. *)
Definition validate (sh : shape) (v : value) : string + record :=
  match v with
  | VObj input =>
      if forbids_unknown sh && negb (forallb (fun kv => declared sh (fst kv)) input)
      then inl "Unrecognized key"
      else
        match check_fields (fields sh) input with
        | inl z => inl z
        | inr added => inr (input ++ added)%list
        end
  | _ => inl "Expected object"
  end.

Definition object_schema (sh : shape) : ZodSchema record := {| parse := validate sh |}.

(** The field [k] is marked required by the shape. *)
Definition marks_required (sh : shape) (k : string) : Prop :=
  exists f, In f (fields sh) /\ fname f = k /\ fmark f = Required.

End Zod.

Import Zod.

(* ===================================================================== *)
(** ** The HTTP client ([http-client.ts]) *)
(* ===================================================================== *)

Module Http.

(** *** [URLSearchParams] *)

Definition URLSearchParams : Type := list (string * string).

Definition append (params : URLSearchParams) (k v : string) : URLSearchParams :=
  (params ++ [(k, v)])%list.

Definition hex_digit (n : N) : ascii :=
  ascii_of_N (if (n <? 10)%N then 48 + n else 55 + n)%N.

Definition is_alnum (c : ascii) : bool :=
  let n := N_of_ascii c in
  (((48 <=? n) && (n <=? 57)) || ((65 <=? n) && (n <=? 90)) || ((97 <=? n) && (n <=? 122)))%N.

(** One byte of the [application/x-www-form-urlencoded] serializer: letters,
    digits and [*-._] stay, a space becomes [+], the rest is percent-encoded.
    Strings are taken as their UTF-8 bytes. *)
Definition encode_byte (c : ascii) : string :=
  if is_alnum c || Ascii.eqb c "*" || Ascii.eqb c "-" || Ascii.eqb c "." || Ascii.eqb c "_"
  then String c ""
  else if Ascii.eqb c " " then "+"
  else
    let n := N_of_ascii c in
    String "%" (String (hex_digit (n / 16)) (String (hex_digit (n mod 16)) "")).

Fixpoint encode (s : string) : string :=
  match s with
  | EmptyString => ""
  | String c rest => encode_byte c ++ encode rest
  end.

(** [params.toString()]. *)
Definition serialize (params : URLSearchParams) : string :=
  join "&" (map (fun kv => encode (fst kv) ++ "=" ++ encode (snd kv)) params).

(** *** The outside world *)

Record Response : Type := {
  status : Z;
  statusText : string;
  (** what [json()] gives: the decoded body, or the text of its rejection *)
  body : string + value
}.

(** [response.ok]. *)
Definition ok (r : Response) : bool := (200 <=? status r) && (status r <=? 299).

(** How one call of [fetch] ends: it rejects (no connection; the abort the
    timeout triggers) or it hands back a response. *)
Inductive fetch_outcome : Type :=
| Rejects (name message : string)
| Responds (r : Response).

(** The network: what the [k]-th [fetch] of a run, for a URL, ends with. *)
Definition network : Type := nat -> string -> fetch_outcome.

(** The calls a run makes, oldest first. *)
Inductive call : Type :=
| Call_buildUrl (endpoint : string)
| Call_fetch (url method : string) (timeout : option Z)
| Call_responseParse (data : value)
| Call_delay (ms : option Z).

Definition trace : Type := list call.

Definition is_fetch (c : call) : bool :=
  match c with Call_fetch _ _ _ => true | _ => false end.

Definition fetch_count (t : trace) : nat := length (List.filter is_fetch t).

(** How an [async] method ends.  [Rejected None] is a thrown [undefined]. *)
Inductive outcome : Type :=
| Resolved (v : value)
| Rejected (thrown : option error).

Record RequestOptions : Type := {
  method : option string;
  headers : option (gmap string string);
  opt_timeout : option Z;
  opt_retries : option Z;
  opt_retryDelay : option Z
}.

Definition no_options : RequestOptions :=
  {| method := None; headers := None; opt_timeout := None;
     opt_retries := None; opt_retryDelay := None |}.

(** *** The client *)

Section Client.

Variable net : network.
(** The configuration object the client's manager refers to during the call. *)
Variable cfg : TripAdvisorConfig.

Definition buildUrl (endpoint : string) (payload : record) : string :=
  let baseUrl := getBaseUrl cfg in
  let params : URLSearchParams := [] in
  let params := append params "key" (apiKey cfg) in
  let params :=
    fold_left
      (fun params kv =>
         match snd kv with
         | VUndefined | VNull => params
         | v => append params (fst kv) (ToString v)
         end)
      payload params in
  from_option id "undefined" baseUrl ++ endpoint ++ "?" ++ serialize params.

Definition buildHeaders (customHeaders : gmap string string) : gmap string string :=
  customHeaders ∪ {[ "Accept" := "application/json"; "Content-Type" := "application/json" ]}.

(** What the [try]/[catch] around [fetch] makes of its ending: a
    rejection is rethrown as it is, a response outside 2xx becomes a
    plain [Error]. *)
Definition settle (o : fetch_outcome) : error + Response :=
  match o with
  | Rejects n m => inl (JsError n m)
  | Responds response =>
      if ok response then inr response
      else inl (JsError "Error"
                  ("HTTP " ++ pretty (status response) ++ ": " ++ statusText response))
  end.

Definition sendRequest (url method : string) (headers : gmap string string)
    (timeout : option Z) (t : trace) : (error + Response) * trace :=
  (settle (net (fetch_count t) url), (t ++ [Call_fetch url method timeout])%list).

Definition isRetryableError (e : error) : bool :=
  String.eqb (name e) "AbortError"
  || includes "fetch" (message e)
  || includes "network" (message e)
  || includes "timeout" (message e)
  || starts_with_5xx (message e).

(** [retryDelay * Math.pow(2, attempt)]; an [undefined] delay gives [NaN]. *)
Definition backoff (retryDelay : option Z) (attempt : Z) : option Z :=
  (fun d => d * 2 ^ attempt) <$> retryDelay.

(** The body of the [try] block: one attempt. *)
Definition attempt_once (url method : string) (headers : gmap string string)
    (responseSchema : ZodSchema value) (timeout : option Z) (t : trace)
  : (error + value) * trace :=
  match sendRequest url method headers timeout t with
  | (inl e, t1) => (inl e, t1)
  | (inr response, t1) =>
      match body response with
      | inl m => (inl (JsError "SyntaxError" m), t1)
      | inr data =>
          if isApiError data then (inl (fromApiResponse data), t1)
          else
            let t2 := (t1 ++ [Call_responseParse data])%list in
            match parse responseSchema data with
            | inr v => (inr v, t2)
            | inl z => (inl (ValidationError ("Invalid response format: " ++ z)), t2)
            end
      end
  end.

(** [attempt <= retries] and [attempt === retries]; both are false for an
    [undefined] budget. *)
Definition within (attempt : Z) (retries : option Z) : bool :=
  from_option (fun r => attempt <=? r) false retries.
Definition is_last (attempt : Z) (retries : option Z) : bool :=
  from_option (fun r => attempt =? r) false retries.

(** The [for] loop, from [attempt] on.  [fuel] bounds the iterations left;
    [sendWithRetry] passes more than the loop can use. *)
Fixpoint retry_loop (fuel : nat) (url method : string) (headers : gmap string string)
    (responseSchema : ZodSchema value) (retries retryDelay timeout : option Z)
    (attempt : Z) (lastError : option error) (t : trace) : outcome * trace :=
  match fuel with
  | O => (Rejected lastError, t)
  | S fuel' =>
      if within attempt retries then
        match attempt_once url method headers responseSchema timeout t with
        | (inr v, t1) => (Resolved v, t1)
        | (inl e, t1) =>
            if is_last attempt retries then (Rejected (Some e), t1)
            else if negb (isRetryableError e) then (Rejected (Some e), t1)
            else
              retry_loop fuel' url method headers responseSchema retries retryDelay timeout
                (attempt + 1) (Some e)
                (t1 ++ [Call_delay (backoff retryDelay attempt)])%list
        end
      else (Rejected lastError, t)
  end.

Definition iterations (retries : option Z) : nat :=
  from_option (fun r => Z.to_nat (r + 1)) O retries.

Definition sendWithRetry (url method : string) (headers : gmap string string)
    (responseSchema : ZodSchema value) (retries retryDelay timeout : option Z)
    (t : trace) : outcome * trace :=
  retry_loop (S (iterations retries)) url method headers responseSchema
    retries retryDelay timeout 0 None t.

Definition request (endpoint : string) (payload : record)
    (payloadSchema : ZodSchema record) (responseSchema : ZodSchema value)
    (options : RequestOptions) (t : trace) : outcome * trace :=
  let method := default "GET" (method options) in
  let headers := default ∅ (headers options) in
  let timeout := from_option Some (getTimeout cfg) (opt_timeout options) in
  let retries := from_option Some (getRetries cfg) (opt_retries options) in
  let retryDelay := from_option Some (getRetryDelay cfg) (opt_retryDelay options) in
  match parse payloadSchema (VObj payload) with
  | inl z => (Rejected (Some (ValidationError ("Invalid request payload: " ++ z))), t)
  | inr validatedPayload =>
      let url := buildUrl endpoint validatedPayload in
      let t1 := (t ++ [Call_buildUrl endpoint])%list in
      let requestHeaders := buildHeaders headers in
      sendWithRetry url method requestHeaders responseSchema retries retryDelay timeout t1
  end.

End Client.

(** *** Notions the statements use *)

(** Neither [undefined] nor [null]. *)
Definition defined (v : value) : bool :=
  match v with
  | VUndefined | VNull => false
  | _ => true
  end.

(** The query arguments a payload contributes: its defined fields, in
    order, each with the text of its value. *)
Definition query_of (payload : record) : URLSearchParams :=
  map (fun kv => (fst kv, ToString (snd kv)))
      (List.filter (fun kv => defined (snd kv)) payload).

(** The iterations the retry loop can still make from attempt [a] on. *)
Definition remaining (retries : option Z) (a : Z) : nat :=
  from_option (fun r => Z.to_nat (r - a + 1)) O retries.


End Http.

Import Http.


(* ===================================================================== *)
(** ** Sample data *)
(* ===================================================================== *)

Module Samples.

Definition only_baseUrl (b : string) : PartialConfig :=
  {| apiKey_opt := Absent; baseUrl_opt := Present (Some b); language_opt := Absent;
     currency_opt := Absent; timeout_opt := Absent; retries_opt := Absent;
     retryDelay_opt := Absent |}.

(** The configuration of scenario A: credential [k1], base [https://api.example/v1]. *)
Definition cfg_k1 : TripAdvisorConfig :=
  with_apiKey (spread DEFAULT_CONFIG (only_baseUrl "https://api.example/v1")) "k1".

(** A manager built from [{ apiKey: 'k1' }] in an empty store. *)
Definition mgr_k1 : ConfigManager := {| config := 1%positive |}.
Definition heap_k1 : gmap positive TripAdvisorConfig :=
  {[ 1%positive := with_apiKey DEFAULT_CONFIG "k1" ]}.

Definition accept_all : ZodSchema value := {| parse := fun v => inr v |}.

Definition search_shape : shape :=
  {| fields := [ {| fname := "searchQuery"; fty := TString; fmark := Required |};
                 {| fname := "language"; fty := TString; fmark := Optional |} ];
     forbids_unknown := false |}.

Definition with_retries (n : Z) : RequestOptions :=
  {| method := None; headers := None; opt_timeout := None;
     opt_retries := Some n; opt_retryDelay := None |}.

(** Every exchange ends with the same response. *)
Definition always (st : Z) (text : string) (b : value) : network :=
  fun _ _ => Responds {| status := st; statusText := text; body := inr b |}.

(** Every exchange times out. *)
Definition always_aborted : network :=
  fun _ _ => Rejects "AbortError" "This operation was aborted".

End Samples.

Import Samples.

(* ===================================================================== *)
(** ** The client facade ([client.ts]) *)
(* ===================================================================== *)

Module Facade.

(** [k in o] for the key [data]: an object answers by its properties, an
    array has no such key, anything else makes the operator throw. *)
Definition has_key (k : string) (fs : list (string * value)) : bool :=
  existsb (fun kv => String.eqb k (fst kv)) fs.

Definition in_operator (k : string) (v : value) : option bool :=
  match v with
  | VObj fs => Some (has_key k fs)
  | VArr _ => Some false
  | _ => None
  end.

(** The payload schema [locationPhotos] builds in place,
    [z.object({ limit: z.number() })]. *)
Definition photos_shape : shape :=
  {| fields := [ {| fname := "limit"; fty := TNumber; fmark := Required |} ];
     forbids_unknown := false |}.

Section TripAdvisorClient.

Variable net : network.
(** The configuration object the client's manager refers to during the call. *)
Variable cfg : TripAdvisorConfig.
(** The schemas of [types/], which the facade only passes on. *)
Variables LocationSearchPayloadSchema LocationDetailsPayloadSchema
          LocationReviewsPayloadSchema : ZodSchema record.
Variables LocationSearchResponseSchema LocationDetailsResponseSchema
          LocationReviewsResponseSchema LocationPhotosResponseSchema : ZodSchema value.
(** The text of the [TypeError] that [in] raises on a value that is not an
    object; the engine words it. *)
Variable in_TypeError : value -> string.

(** [if (!('data' in result)) throw new TripAdvisorError(msg); return result.data]
    after the awaited request. *)
Definition data_or_throw (msg : string) (r : outcome * trace) : outcome * trace :=
  match r with
  | (Resolved result, t) =>
      match in_operator "data" result with
      | None => (Rejected (Some (JsError "TypeError" (in_TypeError result))), t)
      | Some false =>
          (Rejected (Some (new_TripAdvisorError (VStr msg) VUndefined VUndefined false)), t)
      | Some true => (Resolved (get result "data"), t)
      end
  | (Rejected thrown, t) => (Rejected thrown, t)
  end.

Definition locationSearch (payload : record) (t : trace) : outcome * trace :=
  data_or_throw "Invalid search response format"
    (request net cfg "/location/search" payload
       LocationSearchPayloadSchema LocationSearchResponseSchema no_options t).

Definition locationDetails (locationId : string) (payload : record) (t : trace)
  : outcome * trace :=
  request net cfg ("/location/" ++ locationId ++ "/details") payload
    LocationDetailsPayloadSchema LocationDetailsResponseSchema no_options t.

Definition locationReviews (locationId : string) (payload : record) (t : trace)
  : outcome * trace :=
  data_or_throw "Invalid reviews response format"
    (request net cfg ("/location/" ++ locationId ++ "/reviews") payload
       LocationReviewsPayloadSchema LocationReviewsResponseSchema no_options t).

Definition locationPhotos (locationId : string) (limit : Z) (t : trace)
  : outcome * trace :=
  data_or_throw "Invalid photos response format"
    (request net cfg ("/location/" ++ locationId ++ "/photos") [("limit", VNum limit)]
       (object_schema photos_shape) LocationPhotosResponseSchema no_options t).

End TripAdvisorClient.

End Facade.

Import Facade.

(* ===================================================================== *)
(** ** Reading a query string back, and reading a trace *)
(* ===================================================================== *)

Module Observations.

Definition hex_value (c : ascii) : option N :=
  let n := N_of_ascii c in
  if ((48 <=? n) && (n <=? 57))%N then Some (n - 48)%N
  else if ((65 <=? n) && (n <=? 70))%N then Some (n - 55)%N
  else if ((97 <=? n) && (n <=? 102))%N then Some (n - 87)%N
  else None.

(** The decoding the [application/x-www-form-urlencoded] parser applies to a
    name or a value: [+] is a space, [%XY] is the byte with that code, any
    other [%] stays. *)
Fixpoint decode (s : string) : string :=
  match s with
  | EmptyString => ""
  | String c rest =>
      if Ascii.eqb c "+" then String " " (decode rest)
      else if Ascii.eqb c "%" then
        match rest with
        | String a (String b rest') =>
            match hex_value a, hex_value b with
            | Some x, Some y => String (ascii_of_N (16 * x + y)) (decode rest')
            | _, _ => String c (decode rest)
            end
        | _ => String c (decode rest)
        end
      else String c (decode rest)
  end.

(** The pieces of [s] between the occurrences of [sep]. *)
Fixpoint split_on (sep : ascii) (s : string) : list string :=
  match s with
  | EmptyString => [""]
  | String c rest =>
      if Ascii.eqb c sep then "" :: split_on sep rest
      else
        match split_on sep rest with
        | piece :: pieces => String c piece :: pieces
        | [] => [String c ""]
        end
  end.

(** [s] cut at its first [sep]; without one, all of [s] and nothing. *)
Fixpoint cut (sep : ascii) (s : string) : string * string :=
  match s with
  | EmptyString => ("", "")
  | String c rest =>
      if Ascii.eqb c sep then ("", rest)
      else let '(a, b) := cut sep rest in (String c a, b)
  end.

(** The parser of the same format, as [new URLSearchParams(query)] runs it:
    the query is split at [&], empty pieces are skipped, each piece is cut at
    its first [=], and both halves are decoded. *)
Definition parse_query (q : string) : URLSearchParams :=
  map (fun piece => (decode (cut "=" piece).1, decode (cut "=" piece).2))
      (List.filter (fun piece => negb (String.eqb piece "")) (split_on "&" q)).

Fixpoint occurs (c : ascii) (s : string) : bool :=
  match s with
  | EmptyString => false
  | String c' rest => Ascii.eqb c c' || occurs c rest
  end.

(** The waits a trace records, oldest first. *)
Fixpoint delays (t : trace) : list (option Z) :=
  match t with
  | [] => []
  | Call_delay ms :: rest => ms :: delays rest
  | _ :: rest => delays rest
  end.

Definition is_delay (c : call) : bool :=
  match c with Call_delay _ => true | _ => false end.

(** The exchanges and the waits of a trace, in the order they happened. *)
Definition fetches_and_waits (t : trace) : trace :=
  List.filter (fun c => is_fetch c || is_delay c) t.

(** Every optional property of a configuration object is present. *)
Definition is_present {T} (p : prop T) : bool :=
  match p with
  | Absent => false
  | Present _ => true
  end.

Definition complete (c : TripAdvisorConfig) : bool :=
  is_present (baseUrl c) && is_present (language c) && is_present (currency c)
  && is_present (timeout c) && is_present (retries c) && is_present (retryDelay c).

End Observations.

Import Observations.

Module MoreSamples.

(** The first [n] exchanges time out, the later ones deliver [b]. *)
Definition aborted_then (n : nat) (b : value) : network :=
  fun k _ =>
    if (k <? n)%nat then Rejects "AbortError" "This operation was aborted"
    else Responds {| status := 200; statusText := "OK"; body := inr b |}.

(** A schema that accepts anything, for the payload. *)
Definition accept_record : ZodSchema record :=
  {| parse := fun v => match v with VObj fs => inr fs | _ => inl "Expected object" end |}.

(** The configuration built from [{ apiKey: 'k1', retries: undefined }]. *)
Definition cfg_no_retries : TripAdvisorConfig :=
  {| apiKey := "k1";
     baseUrl := Present (Some "https://api.example/v1");
     language := Present (Some "en");
     currency := Present (Some "USD");
     timeout := Present (Some 30000);
     retries := Present None;
     retryDelay := Present (Some 1000) |}.

End MoreSamples.

Import MoreSamples.

(* ===================================================================== *)
(** ** Properties of the configuration manager *)
(* ===================================================================== *)

Section ConfigFacts.

(** The sample manager is what the constructor builds in an empty store. *)
Example new_ConfigManager_k1 :
  new_ConfigManager None (Some (only_apiKey "k1")) ∅ = inr (mgr_k1, heap_k1).
Proof. vm_compute. reflexivity. Qed.

Implicit Types (h : gmap positive TripAdvisorConfig) (m : ConfigManager).

Lemma alloc_fresh o h : h !! (alloc o h).1 = None.
Proof. apply not_elem_of_dom, is_fresh. Qed.

Lemma alloc_lookup_new o h : (alloc o h).2 !! (alloc o h).1 = Some o.
Proof. apply lookup_insert_eq. Qed.

Lemma alloc_lookup_old o h l :
  is_Some (h !! l) -> (alloc o h).2 !! l = h !! l.
Proof.
  intros [x Hx]. unfold alloc; simpl.
  rewrite lookup_insert_ne; [done|].
  intros E. pose proof (alloc_fresh o h) as Hf. unfold alloc in Hf; simpl in Hf.
  rewrite E in Hf. congruence.
Qed.

(** Whatever [validateAndMergeConfig] returns carries a non-empty key. *)
Lemma validateAndMergeConfig_key env cfg c :
  validateAndMergeConfig env cfg = inr c -> apiKey c <> "".
Proof.
  unfold validateAndMergeConfig.
  destruct (str_or _ env) as [k|]; [|done].
  destruct (String.eqb_spec k ""); [done|].
  intros [= <-]. done.
Qed.

(** Its only failure is the configuration error. *)
Lemma validateAndMergeConfig_error env cfg e :
  validateAndMergeConfig env cfg = inl e -> e = ConfigurationError key_required.
Proof.
  unfold validateAndMergeConfig.
  destruct (str_or _ env) as [k|]; [|by intros [= <-]].
  destruct (String.eqb k ""); [by intros [= <-]|done].
Qed.

Lemma new_ConfigManager_key env cfg h m h' :
  new_ConfigManager env cfg h = inr (m, h') ->
  exists c, h' !! config m = Some c /\ apiKey c <> "".
Proof.
  unfold new_ConfigManager.
  destruct (validateAndMergeConfig env cfg) as [e|c] eqn:E; [done|].
  intros [= <- <-]. exists c. split.
  - apply alloc_lookup_new.
  - by eapply validateAndMergeConfig_key.
Qed.

Lemma getApiKey_alloc c h :
  getApiKey {| config := (alloc c h).1 |} (alloc c h).2 = Some (apiKey c).
Proof. unfold getApiKey. cbn [config]. rewrite alloc_lookup_new. done. Qed.

Lemma updateConfig_cases env updates m h c :
  h !! config m = Some c ->
  (updateConfig env updates m h = Some (inl (ConfigurationError key_required), m, h)
   /\ validateAndMergeConfig env (Some (spread (as_partial c) updates))
      = inl (ConfigurationError key_required))
  \/ (exists c',
        validateAndMergeConfig env (Some (spread (as_partial c) updates)) = inr c'
        /\ updateConfig env updates m h
           = Some (inr tt, {| config := (alloc c' h).1 |}, (alloc c' h).2)).
Proof.
  intros Hc. unfold updateConfig. rewrite Hc; simpl.
  destruct (validateAndMergeConfig env _) as [e|c'] eqn:E.
  - left. apply validateAndMergeConfig_error in E as ->. done.
  - right. exists c'. done.
Qed.

(** C9. [getConfig] returns an independent copy, never the live object:
    for every state of the manager, the object it returns is a fresh one
    with the stored fields, and whatever a caller assigns to its
    properties, the stored configuration, every object that existed before
    and every later [getConfig] and [getApiKey] are unchanged. *)
Theorem getConfig_returns_independent_copy
    m h c (f : TripAdvisorConfig -> TripAdvisorConfig) :
  h !! config m = Some c ->
  exists r h1,
    getConfig m h = Some (r, h1)
    /\ r <> config m
    /\ h1 !! r = Some c
    /\ mutate r f h1 !! config m = Some c
    /\ getApiKey m (mutate r f h1) = Some (apiKey c)
    /\ (forall l, is_Some (h !! l) -> mutate r f h1 !! l = h !! l)
    /\ exists r' h3, getConfig m (mutate r f h1) = Some (r', h3) /\ h3 !! r' = Some c.
Proof.
  intros Hc.
  exists (alloc c h).1, (alloc c h).2.
  assert (Hne : (alloc c h).1 <> config m).
  { intros E. pose proof (alloc_fresh c h) as Hf. rewrite E in Hf. congruence. }
  assert (Hold : forall l, is_Some (h !! l) ->
                   mutate (alloc c h).1 f (alloc c h).2 !! l = h !! l).
  { intros l Hl. unfold mutate. rewrite lookup_alter_ne.
    - by apply alloc_lookup_old.
    - intros E. pose proof (alloc_fresh c h) as Hf. rewrite E in Hf.
      destruct Hl as [x Hx]. congruence. }
  assert (Hlive : mutate (alloc c h).1 f (alloc c h).2 !! config m = Some c).
  { rewrite Hold; [done|]. by exists c. }
  split; [|split; [|split; [|split; [|split; [|split]]]]].
  - unfold getConfig. rewrite Hc. done.
  - done.
  - apply alloc_lookup_new.
  - done.
  - unfold getApiKey. rewrite Hlive. done.
  - done.
  - eexists _, _. split.
    + unfold getConfig. rewrite Hlive. simpl. reflexivity.
    + apply alloc_lookup_new.
Qed.

(** The copy of the test: [configCopy.apiKey = 'modified'] on a manager
    built from [{ apiKey: 'k1' }]. *)
Lemma getConfig_returns_independent_copy_witness :
  exists r h1,
    getConfig mgr_k1 heap_k1 = Some (r, h1)
    /\ r <> config mgr_k1
    /\ h1 !! r = Some (with_apiKey DEFAULT_CONFIG "k1")
    /\ mutate r (fun o => with_apiKey (as_partial o) "modified") h1 !! config mgr_k1
       = Some (with_apiKey DEFAULT_CONFIG "k1")
    /\ getApiKey mgr_k1 (mutate r (fun o => with_apiKey (as_partial o) "modified") h1)
       = Some "k1"
    /\ (forall l, is_Some (heap_k1 !! l) ->
          mutate r (fun o => with_apiKey (as_partial o) "modified") h1 !! l = heap_k1 !! l)
    /\ exists r' h3,
         getConfig mgr_k1 (mutate r (fun o => with_apiKey (as_partial o) "modified") h1)
         = Some (r', h3)
         /\ h3 !! r' = Some (with_apiKey DEFAULT_CONFIG "k1").
Proof.
  apply (getConfig_returns_independent_copy mgr_k1 heap_k1
           (with_apiKey DEFAULT_CONFIG "k1")
           (fun o => with_apiKey (as_partial o) "modified")).
  reflexivity.
Defined.

(** C7, as the code has it.  After every successful construction or update
    the stored credential is non-empty, and an update is all or nothing:
    it either throws the configuration error and leaves the manager and
    the store as they were, or it installs the validated merge of the old
    configuration and the updates.  [updateConfig({ apiKey: '' })] throws
    and keeps the old credential when the environment variable is unset
    or empty; the credential falls back to the variable otherwise. *)
Theorem update_atomic_and_credential_nonempty env updates m h c :
  h !! config m = Some c ->
  (forall cfg0 h0 m0 h0',
      new_ConfigManager env cfg0 h0 = inr (m0, h0') ->
      exists c0, h0' !! config m0 = Some c0 /\ apiKey c0 <> "")
  /\ ((updateConfig env updates m h = Some (inl (ConfigurationError key_required), m, h)
       /\ getApiKey m h = Some (apiKey c))
      \/ (exists m' h' c',
            updateConfig env updates m h = Some (inr tt, m', h')
            /\ validateAndMergeConfig env (Some (spread (as_partial c) updates)) = inr c'
            /\ h' !! config m' = Some c'
            /\ apiKey c' <> ""
            /\ getApiKey m' h' = Some (apiKey c')))
  /\ (env = None \/ env = Some "" ->
      updateConfig env (only_apiKey "") m h
      = Some (inl (ConfigurationError key_required), m, h)
      /\ getApiKey m h = Some (apiKey c))
  /\ (forall k, env = Some k -> k <> "" ->
      exists m' h',
        updateConfig env (only_apiKey "") m h = Some (inr tt, m', h')
        /\ getApiKey m' h' = Some k).
Proof.
  intros Hc.
  assert (Hget : getApiKey m h = Some (apiKey c)).
  { unfold getApiKey. rewrite Hc. done. }
  split; [|split; [|split]].
  - intros cfg0 h0 m0 h0'. apply new_ConfigManager_key.
  - destruct (updateConfig_cases env updates m h c Hc) as [[Hu _]|(c' & Hv & Hu)].
    + left. done.
    + right. eexists _, _, c'. split; [exact Hu|]. split; [exact Hv|].
      simpl. split; [apply alloc_lookup_new|]. split.
      * by eapply validateAndMergeConfig_key.
      * apply getApiKey_alloc.
  - intros Henv. split; [|done].
    unfold updateConfig. rewrite Hc. simpl.
    destruct Henv as [-> | ->]; reflexivity.
  - intros k -> Hk.
    assert (Hv : exists c', validateAndMergeConfig (Some k)
                   (Some (spread (as_partial c) (only_apiKey ""))) = inr c'
                   /\ apiKey c' = k).
    { unfold validateAndMergeConfig. simpl.
      destruct (String.eqb_spec k ""); [done|]. eexists. split; reflexivity. }
    destruct Hv as (c' & Hv & Hk').
    destruct (updateConfig_cases (Some k) (only_apiKey "") m h c Hc)
      as [[_ Hu]|(c'' & Hv' & Hu)]; [congruence|].
    rewrite Hv in Hv'. injection Hv' as <-.
    eexists _, _. split; [exact Hu|]. rewrite getApiKey_alloc. congruence.
Qed.

(** Scenario D with the environment variable unset. *)
Lemma update_atomic_and_credential_nonempty_witness :
  updateConfig None (only_apiKey "") mgr_k1 heap_k1
  = Some (inl (ConfigurationError key_required), mgr_k1, heap_k1)
  /\ getApiKey mgr_k1 heap_k1 = Some "k1".
Proof.
  refine (proj1 (proj2 (proj2
    (update_atomic_and_credential_nonempty None (only_apiKey "") mgr_k1 heap_k1
       (with_apiKey DEFAULT_CONFIG "k1") _))) _).
  - reflexivity.
  - left. reflexivity.
Defined.

(** Scenario D fails when [TRIPADVISOR_API_KEY] is set: the update
    succeeds and the credential read afterwards is the variable's. *)
Lemma update_empty_key_takes_env_key :
  getApiKey mgr_k1 heap_k1 = Some "k1"
  /\ (exists m' h',
        updateConfig (Some "env-key") (only_apiKey "") mgr_k1 heap_k1
        = Some (inr tt, m', h')
        /\ getApiKey m' h' = Some "env-key")
  /\ ~ (exists e m' h',
          updateConfig (Some "env-key") (only_apiKey "") mgr_k1 heap_k1
          = Some (inl e, m', h')).
Proof.
  split; [reflexivity|]. split.
  - eexists _, _. split; vm_compute; reflexivity.
  - intros (e & m' & h' & H). vm_compute in H. discriminate.
Qed.

End ConfigFacts.

(* ===================================================================== *)
(** ** Properties of the request encoder and of parameter validation *)
(* ===================================================================== *)

Section EncoderFacts.

Variable cfg : TripAdvisorConfig.

Lemma forEach_append (payload : record) (params : URLSearchParams) :
  fold_left
    (fun params kv =>
       match snd kv with
       | VUndefined | VNull => params
       | v => append params (fst kv) (ToString v)
       end)
    payload params
  = (params ++ query_of payload)%list.
Proof.
  revert params. induction payload as [|[k v] rest IH]; intros params.
  - simpl. by rewrite app_nil_r.
  - cbn [fold_left]. rewrite IH. unfold query_of, append.
    destruct v; simpl; try done; by rewrite <- app_assoc.
Qed.

Lemma query_of_keys (payload : record) (k : string) :
  In k (map fst (query_of payload)) ->
  exists v, In (k, v) payload /\ defined v = true.
Proof.
  unfold query_of. rewrite map_map. simpl. intros H.
  apply in_map_iff in H as ([k' v] & <- & Hin).
  apply filter_In in Hin as [Hin Hd]. by exists v.
Qed.

(** C5. The encoded URL is the base address, the path, a question mark and
    the serialized query whose first argument is the credential under
    [key], followed by exactly the payload's fields that are neither
    [undefined] nor [null], in the payload's order, each with the text of
    its value; a field whose value is [undefined] or [null] gives no query
    key. *)
Theorem buildUrl_encodes_defined_fields_in_order (endpoint : string) (payload : record) :
  buildUrl cfg endpoint payload
  = from_option id "undefined" (getBaseUrl cfg) ++ endpoint ++ "?"
    ++ serialize (("key", apiKey cfg) :: query_of payload)
  /\ map fst (("key", apiKey cfg) :: query_of payload)
     = "key" :: map fst (List.filter (fun kv => defined (snd kv)) payload)
  /\ forall k,
       k <> "key" ->
       (forall v, In (k, v) payload -> v = VUndefined \/ v = VNull) ->
       ~ In k (map fst (("key", apiKey cfg) :: query_of payload)).
Proof.
  split; [|split].
  - unfold buildUrl. rewrite forEach_append. reflexivity.
  - unfold query_of. simpl. by rewrite map_map.
  - intros k Hk Hnone [E|Hin]; [by apply Hk|].
    apply query_of_keys in Hin as (v & Hin & Hd).
    destruct (Hnone v Hin) as [-> | ->]; discriminate.
Qed.

End EncoderFacts.

(** Scenario A, with a [null] currency added: the URL, and no [currency] key. *)
Lemma buildUrl_encodes_defined_fields_in_order_witness :
  buildUrl cfg_k1 "/location/search"
    [("searchQuery", VStr "Paris"); ("currency", VNull); ("language", VStr "en")]
  = "https://api.example/v1/location/search?key=k1&searchQuery=Paris&language=en"
  /\ ~ In "currency"
        (map fst (("key", apiKey cfg_k1)
                  :: query_of [("searchQuery", VStr "Paris"); ("currency", VNull);
                               ("language", VStr "en")])).
Proof.
  pose proof (buildUrl_encodes_defined_fields_in_order cfg_k1 "/location/search"
                [("searchQuery", VStr "Paris"); ("currency", VNull); ("language", VStr "en")])
    as (Hurl & _ & Hnone).
  split.
  - rewrite Hurl. vm_compute. reflexivity.
  - apply Hnone.
    + discriminate.
    + intros v [E|[E|[E|[]]]]; inversion E. right. reflexivity.
Defined.

Section ValidatorFacts.

Lemma check_fields_required (fs : list field_spec) (input : record) (f : field_spec) :
  In f fs -> fmark f = Required -> assoc (fname f) input = VUndefined ->
  exists z, check_fields fs input = inl z.
Proof.
  intros Hin Hreq Hmiss. induction fs as [|g rest IH]; [done|].
  cbn [check_fields]. destruct Hin as [-> | Hin].
  - rewrite Hmiss, Hreq. eauto.
  - destruct (IH Hin) as [z Hz]. rewrite Hz.
    destruct (assoc (fname g) input), (fmark g);
      try (destruct (has_type _ _)); eauto.
Qed.

Lemma validate_required (sh : shape) (input : record) (k : string) :
  marks_required sh k -> assoc k input = VUndefined ->
  exists z, validate sh (VObj input) = inl z.
Proof.
  intros (f & Hin & <- & Hreq) Hmiss. unfold validate.
  destruct (_ && _); [eauto|].
  destruct (check_fields_required _ _ _ Hin Hreq Hmiss) as [z ->]. eauto.
Qed.

Variable net : network.
Variable cfg : TripAdvisorConfig.

(** Whatever the payload schema rejects never reaches the encoder or the
    network: the trace of calls stays as it was. *)
Lemma request_rejected_payload endpoint payload (ps : ZodSchema record) rs options t z :
  parse ps (VObj payload) = inl z ->
  request net cfg endpoint payload ps rs options t
  = (Rejected (Some (ValidationError ("Invalid request payload: " ++ z))), t).
Proof. intros H. unfold request. rewrite H. reflexivity. Qed.

(** C6. For every shape and every payload missing a field the shape marks
    required, [request] fails with a [ValidationError] and makes no call:
    the trace is unchanged, so neither [buildUrl] nor [fetch] was invoked. *)
Theorem request_missing_required_field_rejected
    endpoint (payload : record) (sh : shape) (k : string) rs options t :
  marks_required sh k ->
  assoc k payload = VUndefined ->
  exists z,
    request net cfg endpoint payload (object_schema sh) rs options t
    = (Rejected (Some (ValidationError ("Invalid request payload: " ++ z))), t).
Proof.
  intros Hreq Hmiss.
  destruct (validate_required sh payload k Hreq Hmiss) as [z Hz].
  exists z. by apply request_rejected_payload.
Qed.

End ValidatorFacts.

(** The test's payload [{ invalidField: 'test' }] against a shape requiring
    [searchQuery]. *)
Lemma request_missing_required_field_rejected_witness :
  exists z,
    request always_aborted cfg_k1 "/location/search" [("invalidField", VStr "test")]
      (object_schema search_shape) accept_all no_options []
    = (Rejected (Some (ValidationError ("Invalid request payload: " ++ z))), []).
Proof.
  apply (request_missing_required_field_rejected always_aborted cfg_k1 "/location/search"
           [("invalidField", VStr "test")] search_shape "searchQuery").
  - exists {| fname := "searchQuery"; fty := TString; fmark := Required |}.
    split; [left; reflexivity | split; reflexivity].
  - reflexivity.
Defined.

(* ===================================================================== *)
(** ** Properties of the retry loop *)
(* ===================================================================== *)


Section RetryFacts.

Variable net : network.
Variables (url method : string) (headers : gmap string string).
Variable responseSchema : ZodSchema value.
Variables (retryDelay timeout : option Z).

Local Abbreviation attempt_at t :=
  (attempt_once net url method headers responseSchema timeout t).
Local Abbreviation loop fuel retries a last t :=
  (retry_loop net fuel url method headers responseSchema retries retryDelay timeout a last t).
Local Abbreviation fetched t := (t ++ [Call_fetch url method timeout])%list.

Lemma fetch_count_app (t1 t2 : trace) :
  fetch_count (t1 ++ t2)%list = (fetch_count t1 + fetch_count t2)%nat.
Proof. unfold fetch_count. by rewrite List.filter_app, length_app. Qed.

Lemma fetch_count_fetched (t : trace) : fetch_count (fetched t) = S (fetch_count t).
Proof. rewrite fetch_count_app. cbn. lia. Qed.

(** An attempt whose exchange fails ends there, with that failure. *)
Lemma attempt_transport_failure (t : trace) (e : error) :
  settle (net (fetch_count t) url) = inl e ->
  attempt_at t = (inl e, fetched t).
Proof. intros H. unfold attempt_once, sendRequest. rewrite H. reflexivity. Qed.

(** An attempt whose exchange delivers a decoded body. *)
Lemma attempt_body (t : trace) (response : Response) (data : value) :
  net (fetch_count t) url = Responds response ->
  ok response = true ->
  body response = inr data ->
  attempt_at t
  = if isApiError data then (inl (fromApiResponse data), fetched t)
    else
      (match parse responseSchema data with
       | inr v => inr v
       | inl z => inl (ValidationError ("Invalid response format: " ++ z))
       end,
       (fetched t ++ [Call_responseParse data])%list).
Proof.
  intros Hnet Hok Hbody. unfold attempt_once, sendRequest, settle.
  rewrite Hnet, Hok, Hbody.
  destruct (isApiError data); [done|]. by destruct (parse responseSchema data).
Qed.

(** Every attempt makes exactly one exchange. *)
Lemma attempt_fetch_count (t : trace) :
  fetch_count (attempt_at t).2 = S (fetch_count t).
Proof.
  unfold attempt_once, sendRequest.
  destruct (settle _) as [e|response]; cbn [snd]; [apply fetch_count_fetched|].
  destruct (body response) as [m|data]; cbn [snd]; [apply fetch_count_fetched|].
  destruct (isApiError data); cbn [snd]; [apply fetch_count_fetched|].
  destruct (parse responseSchema data); cbn [snd];
    rewrite fetch_count_app, fetch_count_fetched; cbn; lia.
Qed.


Lemma loop_step fuel retries a last t :
  loop (S fuel) retries a last t
  = if within a retries then
      match attempt_at t with
      | (inr v, t1) => (Resolved v, t1)
      | (inl e, t1) =>
          if is_last a retries then (Rejected (Some e), t1)
          else if negb (isRetryableError e) then (Rejected (Some e), t1)
          else loop fuel retries (a + 1) (Some e)
                 (t1 ++ [Call_delay (backoff retryDelay a)])%list
      end
    else (Rejected last, t).
Proof. reflexivity. Qed.

(** Fuel beyond the iterations that remain changes nothing: the branch for
    spent fuel is never taken by [sendWithRetry]. *)
Lemma loop_fuel_irrelevant retries :
  forall (fuel fuel' : nat) (a : Z) (last : option error) (t : trace),
    (remaining retries a < fuel)%nat ->
    (remaining retries a < fuel')%nat ->
    loop fuel retries a last t = loop fuel' retries a last t.
Proof.
  induction fuel as [|fuel IH]; intros fuel' a last t Hf Hf'; [lia|].
  destruct fuel' as [|fuel']; [lia|].
  rewrite !loop_step.
  destruct retries as [r|]; [|reflexivity].
  unfold within, is_last, remaining in *. cbn [from_option] in *.
  destruct (Z.leb_spec a r) as [Hle|]; [|reflexivity].
  destruct (attempt_at t) as [[e|v] t1]; [|reflexivity].
  destruct (Z.eqb_spec a r) as [|Hne]; [reflexivity|].
  destruct (negb (isRetryableError e)); [reflexivity|].
  apply IH; lia.
Qed.

Lemma sendWithRetry_fuel retries (fuel : nat) (t : trace) :
  (iterations retries < fuel)%nat ->
  sendWithRetry net url method headers responseSchema retries retryDelay timeout t
  = loop fuel retries 0 None t.
Proof.
  intros Hf. unfold sendWithRetry. apply loop_fuel_irrelevant.
  - unfold remaining, iterations. destruct retries as [r|]; cbn [from_option]; lia.
  - unfold remaining, iterations in *. destruct retries as [r|]; cbn [from_option] in *; lia.
Qed.

(** With fuel for the attempts that remain, the loop that keeps meeting
    retryable transport failures runs to the last attempt. *)
Lemma loop_all_retryable (N : nat) :
  forall (d i fuel : nat) (last : option error) (t : trace),
    (i + d)%nat = N ->
    (d < fuel)%nat ->
    (forall j, (j <= d)%nat ->
       exists e, settle (net (fetch_count t + j)%nat url) = inl e
                 /\ isRetryableError e = true) ->
    exists e t',
      loop fuel (Some (Z.of_nat N)) (Z.of_nat i) last t = (Rejected (Some e), t')
      /\ settle (net (fetch_count t + d)%nat url) = inl e
      /\ fetch_count t' = (fetch_count t + d + 1)%nat.
Proof.
  induction d as [|d IH]; intros i fuel last t Hi Hfuel Hall;
    (destruct fuel as [|fuel]; [lia|]);
    rewrite loop_step;
    destruct (Hall O ltac:(lia)) as (e0 & He0 & Hr0);
    rewrite Nat.add_0_r in He0;
    rewrite (attempt_transport_failure t e0 He0);
    unfold within, is_last; cbn [from_option].
  - replace (Z.of_nat i <=? Z.of_nat N) with true by (symmetry; apply Z.leb_le; lia).
    replace (Z.of_nat i =? Z.of_nat N) with true by (symmetry; apply Z.eqb_eq; lia).
    exists e0, (fetched t). rewrite Nat.add_0_r, fetch_count_fetched.
    split; [done|]. split; [done|lia].
  - replace (Z.of_nat i <=? Z.of_nat N) with true by (symmetry; apply Z.leb_le; lia).
    replace (Z.of_nat i =? Z.of_nat N) with false by (symmetry; apply Z.eqb_neq; lia).
    rewrite Hr0. cbn [negb].
    replace (Z.of_nat i + 1) with (Z.of_nat (S i)) by lia.
    set (t2 := (fetched t ++ [Call_delay (backoff retryDelay (Z.of_nat i))])%list).
    assert (Hc : fetch_count t2 = S (fetch_count t)).
    { unfold t2. rewrite fetch_count_app, fetch_count_fetched. cbn. lia. }
    destruct (IH (S i) fuel (Some e0) t2) as (e & t' & Hrun & Hlast & Hcount).
    + lia.
    + lia.
    + intros j Hj. rewrite Hc.
      destruct (Hall (S j) ltac:(lia)) as (e & He & Hr).
      exists e. split; [|done].
      replace (S (fetch_count t) + j)%nat with (fetch_count t + S j)%nat by lia. done.
    + exists e, t'. split; [exact Hrun|]. rewrite Hc in Hlast, Hcount. split.
      * replace (fetch_count t + S d)%nat with (S (fetch_count t) + d)%nat by lia. done.
      * lia.
Qed.

(** With a retry budget of [N], when every exchange fails with an error
    that [isRetryableError] accepts (a rejection of [fetch] named
    [AbortError] or mentioning [fetch], [network] or [timeout]), [fetch] is
    invoked exactly [N + 1] times and the error surfaced is the one of the
    last exchange.  A 5xx status is not among these failures, see
    [status_failure_never_matches_5xx]. *)
Theorem exhausted_budget_makes_N_plus_1_fetches (N : nat) (t : trace) :
  (forall j, (j <= N)%nat ->
     exists e, settle (net (fetch_count t + j)%nat url) = inl e
               /\ isRetryableError e = true) ->
  exists e t',
    sendWithRetry net url method headers responseSchema
      (Some (Z.of_nat N)) retryDelay timeout t
    = (Rejected (Some e), t')
    /\ settle (net (fetch_count t + N)%nat url) = inl e
    /\ fetch_count t' = (fetch_count t + (N + 1))%nat.
Proof.
  intros Hall. unfold sendWithRetry.
  destruct (loop_all_retryable N N O (S (iterations (Some (Z.of_nat N)))) None t)
    as (e & t' & Hrun & Hlast & Hcount).
  - lia.
  - unfold iterations. cbn [from_option]. lia.
  - exact Hall.
  - exists e, t'. change (Z.of_nat 0) with 0 in Hrun.
    split; [exact Hrun|]. split; [exact Hlast|lia].
Qed.


(** The first attempt decides the call when it fails with an error that is
    not retryable, or when no retry is configured. *)
Lemma first_attempt_final (r : Z) (t t1 : trace) (e : error) :
  0 <= r ->
  attempt_at t = (inl e, t1) ->
  r = 0 \/ isRetryableError e = false ->
  sendWithRetry net url method headers responseSchema (Some r) retryDelay timeout t
  = (Rejected (Some e), t1).
Proof.
  intros Hr Hatt Hfinal. unfold sendWithRetry. rewrite loop_step.
  unfold within, is_last. cbn [from_option].
  replace (0 <=? r) with true by (symmetry; apply Z.leb_le; lia).
  rewrite Hatt. destruct (Z.eqb_spec 0 r); [done|].
  destruct Hfinal as [-> | ->]; done.
Qed.

End RetryFacts.

(** Three timeouts with a budget of two retries: three exchanges, and the
    abort of the third one is what the caller gets. *)
Lemma exhausted_budget_makes_N_plus_1_fetches_witness :
  exists e t',
    sendWithRetry always_aborted "u" "GET" ∅ accept_all
      (Some (Z.of_nat 2)) (Some 1000) (Some 30000) []
    = (Rejected (Some e), t')
    /\ settle (always_aborted (fetch_count [] + 2)%nat "u") = inl e
    /\ fetch_count t' = (fetch_count [] + (2 + 1))%nat.
Proof.
  apply (exhausted_budget_makes_N_plus_1_fetches always_aborted "u" "GET" ∅ accept_all
           (Some 1000) (Some 30000) 2 []).
  intros j _. exists (JsError "AbortError" "This operation was aborted").
  split; reflexivity.
Defined.

(** A budget below zero: the loop body never runs and [undefined] is thrown. *)
Example negative_budget_throws_undefined :
  sendWithRetry always_aborted "u" "GET" ∅ accept_all (Some (-1)) (Some 1000) (Some 30000) []
  = (Rejected None, []).
Proof. reflexivity. Qed.

(** Scenario B: two timeouts, then [{ data: [] }], with two retries. *)
Example two_timeouts_then_success :
  let net : network := fun k _ =>
    if (k <? 2)%nat then Rejects "AbortError" "This operation was aborted"
    else Responds {| status := 200; statusText := "OK"; body := inr (VObj [("data", VArr [])]) |} in
  exists t',
    request net cfg_k1 "/location/search" [("searchQuery", VStr "Paris")]
      (object_schema search_shape) accept_all (with_retries 2) []
    = (Resolved (VObj [("data", VArr [])]), t')
    /\ fetch_count t' = 3%nat.
Proof. eexists. split; vm_compute; reflexivity. Qed.

(* ===================================================================== *)
(** ** Retryability of failures *)
(* ===================================================================== *)

Section RetryabilityFacts.

(** The message of a status failure starts with [HTTP], so the pattern for
    a leading 5xx never matches it. *)
Lemma status_failure_never_matches_5xx (st : Z) (text : string) :
  starts_with_5xx ("HTTP " ++ pretty st ++ ": " ++ text) = false.
Proof. reflexivity. Qed.

(** A status failure is retryable only through its status text. *)
Lemma status_failure_retryable (st : Z) (text : string) :
  isRetryableError (JsError "Error" ("HTTP " ++ pretty st ++ ": " ++ text))
  = includes "fetch" ("HTTP " ++ pretty st ++ ": " ++ text)
    || includes "network" ("HTTP " ++ pretty st ++ ": " ++ text)
    || includes "timeout" ("HTTP " ++ pretty st ++ ": " ++ text).
Proof.
  unfold isRetryableError. cbn [name message].
  rewrite status_failure_never_matches_5xx, orb_false_r. reflexivity.
Qed.

End RetryabilityFacts.

(** C1, on the code: a response with status 500 and three retries left.  The
    failure [HTTP 500: Internal Server Error] is not classified as
    retryable, and the call ends after one exchange, without a delay. *)
Theorem http_500_failure_not_retried :
  settle (Responds {| status := 500; statusText := "Internal Server Error"; body := inr VNull |})
  = inl (JsError "Error" "HTTP 500: Internal Server Error")
  /\ isRetryableError (JsError "Error" "HTTP 500: Internal Server Error") = false
  /\ request (always 500 "Internal Server Error" VNull) cfg_k1 "/location/search"
       [("searchQuery", VStr "Paris")] (object_schema search_shape) accept_all
       (with_retries 3) []
     = (Rejected (Some (JsError "Error" "HTTP 500: Internal Server Error")),
        [Call_buildUrl "/location/search";
         Call_fetch "https://api.example/v1/location/search?key=k1&searchQuery=Paris"
           "GET" (Some 30000)]).
Proof. split; [|split]; vm_compute; reflexivity. Qed.

(** C2, on the code: a budget of two retries, and every exchange answered
    with status 503, so every attempt fails with a 5xx transport error.
    [fetch] is invoked once, not three times: the failure of the first
    exchange is not classified as retryable and ends the call, without a
    wait. *)
Theorem http_503_budget_of_two_makes_one_fetch :
  (forall k : nat,
      settle (always 503 "Service Unavailable" VNull k "u")
      = inl (JsError "Error" "HTTP 503: Service Unavailable"))
  /\ isRetryableError (JsError "Error" "HTTP 503: Service Unavailable") = false
  /\ sendWithRetry (always 503 "Service Unavailable" VNull) "u" "GET" ∅ accept_all
       (Some (Z.of_nat 2)) (Some 1000) (Some 30000) []
     = (Rejected (Some (JsError "Error" "HTTP 503: Service Unavailable")),
        [Call_fetch "u" "GET" (Some 30000)])
  /\ fetch_count [Call_fetch "u" "GET" (Some 30000)] = 1%nat.
Proof.
  split; [intros k; reflexivity|]. split; [vm_compute; reflexivity|].
  split; [vm_compute; reflexivity|reflexivity].
Qed.

(** C3, on the code: every exchange succeeds with the API error body
    [{ Message: 'Could not fetch location 42', code: 404 }], three retries
    configured.  The classified API error counts as retryable because its
    message contains [fetch]; the loop waits and tries again until the
    budget is spent: four exchanges, three delays. *)
Theorem api_error_mentioning_fetch_is_retried :
  let data := VObj [("Message", VStr "Could not fetch location 42"); ("code", VNum 404)] in
  let e := TripAdvisorError "Could not fetch location 42" (VNum 404) VUndefined true in
  let u := "https://api.example/v1/location/search?key=k1&searchQuery=Paris" in
  fromApiResponse data = e
  /\ isRetryableError e = true
  /\ request (always 200 "OK" data) cfg_k1 "/location/search"
       [("searchQuery", VStr "Paris")] (object_schema search_shape) accept_all
       (with_retries 3) []
     = (Rejected (Some e),
        [Call_buildUrl "/location/search";
         Call_fetch u "GET" (Some 30000); Call_delay (Some 1000);
         Call_fetch u "GET" (Some 30000); Call_delay (Some 2000);
         Call_fetch u "GET" (Some 30000); Call_delay (Some 4000);
         Call_fetch u "GET" (Some 30000)]).
Proof. cbv zeta. split; [|split]; vm_compute; reflexivity. Qed.

(* ===================================================================== *)
(** ** Classification of response bodies *)
(* ===================================================================== *)

Section ClassifierFacts.

Variable net : network.
Variables (url method : string) (headers : gmap string string).
Variable responseSchema : ZodSchema value.
Variables (retryDelay timeout : option Z).

Lemma is_object_truthy (v : value) : is_object v = true -> truthy v = true.
Proof. by destruct v. Qed.


Lemma isApiError_falsy (data : value) :
  truthy (get data "error") = false ->
  truthy (get data "Message") = false ->
  isApiError data = false.
Proof. unfold isApiError, or_else. intros -> ->. reflexivity. Qed.

Lemma new_TripAdvisorError_truthy (v c ty : value) (flag : bool) :
  truthy v = true ->
  new_TripAdvisorError v c ty flag = TripAdvisorError (ToString v) c ty flag.
Proof. by destruct v. Qed.


(** What [fromApiResponse] extracts from either envelope. *)
Lemma fromApiResponse_envelope (data : value) :
  is_object (get data "error") = true \/ truthy (get data "Message") = true ->
  fromApiResponse data
  = if is_object (get data "error") then
      TripAdvisorError
        (if truthy (get (get data "error") "message")
         then ToString (get (get data "error") "message")
         else "Unknown API error")
        (get (get data "error") "code") (get (get data "error") "type") true
    else
      TripAdvisorError (ToString (get data "Message"))
        (get data "code") (get data "type") true.
Proof.
  intros H. unfold fromApiResponse.
  destruct (is_object (get data "error")) eqn:Eo.
  - rewrite (is_object_truthy _ Eo). cbn [andb].
    rewrite new_TripAdvisorError_truthy.
    + unfold or_else. by destruct (truthy (get (get data "error") "message")).
    + unfold or_else. by destruct (truthy (get (get data "error") "message")) eqn:E.
  - rewrite andb_false_r. destruct H as [H|H]; [done|].
    rewrite H. by apply new_TripAdvisorError_truthy.
Qed.

Local Abbreviation attempt_at t :=
  (attempt_once net url method headers responseSchema timeout t).
Local Abbreviation fetched t := (t ++ [Call_fetch url method timeout])%list.


(** C10. A decoded body whose [error] field is falsy (or absent) and whose
    [Message] field is falsy is not classified as an API error: the
    attempt hands it to the response schema, and ends the way the schema
    decides. *)
Theorem falsy_envelope_fields_go_to_validation
    (t : trace) (response : Response) (data : value) :
  net (fetch_count t) url = Responds response ->
  ok response = true ->
  body response = inr data ->
  truthy (get data "error") = false ->
  truthy (get data "Message") = false ->
  isApiError data = false
  /\ attempt_at t
     = (match parse responseSchema data with
        | inr v => inr v
        | inl z => inl (ValidationError ("Invalid response format: " ++ z))
        end,
        (fetched t ++ [Call_responseParse data])%list).
Proof.
  intros Hnet Hok Hbody He Hm.
  pose proof (isApiError_falsy data He Hm) as Hno.
  split; [exact Hno|].
  rewrite (attempt_body _ _ _ _ _ _ t response data Hnet Hok Hbody).
  by rewrite Hno.
Qed.

End ClassifierFacts.



(** The body [{ Message: '' }] against a schema that accepts anything. *)
Lemma falsy_envelope_fields_go_to_validation_witness :
  isApiError (VObj [("Message", VStr "")]) = false
  /\ attempt_once (always 200 "OK" (VObj [("Message", VStr "")]))
       "u" "GET" ∅ accept_all (Some 30000) []
     = (inr (VObj [("Message", VStr "")]),
        [Call_fetch "u" "GET" (Some 30000);
         Call_responseParse (VObj [("Message", VStr "")])]).
Proof.
  apply (falsy_envelope_fields_go_to_validation
           (always 200 "OK" (VObj [("Message", VStr "")]))
           "u" "GET" ∅ accept_all (Some 30000) []
           {| status := 200; statusText := "OK"; body := inr (VObj [("Message", VStr "")]) |}
           (VObj [("Message", VStr "")])); reflexivity.
Defined.

(* ===================================================================== *)
(** ** The failure a caller receives *)
(* ===================================================================== *)

Section FailureFacts.

Variable net : network.
Variable cfg : TripAdvisorConfig.


End FailureFacts.



(* ===================================================================== *)
(** ** More on the configuration manager *)
(* ===================================================================== *)

Section ConfigMore.

Implicit Types (h : gmap positive TripAdvisorConfig) (m : ConfigManager).

(** X1.  The credential [validateAndMergeConfig] resolves: the given key when it
    is a non-empty string, else the environment variable when that is one;
    it throws exactly when neither is.  The omitted argument counts as no
    key given. *)
Theorem credential_resolution_order env cfg :
  let given := from_option (fun c => read (apiKey_opt c)) None cfg in
  match validateAndMergeConfig env cfg with
  | inr c =>
      apiKey c <> ""
      /\ (given = Some (apiKey c)
          \/ ((given = None \/ given = Some "") /\ env = Some (apiKey c)))
  | inl e =>
      e = ConfigurationError key_required
      /\ (given = None \/ given = Some "")
      /\ (env = None \/ env = Some "")
  end.
Proof.
  cbv zeta. unfold validateAndMergeConfig.
  destruct (from_option _ None cfg) as [g|]; cbn [str_or].
  - destruct (String.eqb_spec g "") as [->|Hg].
    + destruct env as [e|]; [|auto].
      destruct (String.eqb_spec e "") as [->|He]; [auto|].
      cbn [apiKey with_apiKey]. auto.
    + cbn [apiKey with_apiKey]. destruct (String.eqb_spec g ""); [done|]. auto.
  - destruct env as [e|]; [|auto].
    destruct (String.eqb_spec e "") as [->|He]; [auto|].
    cbn [apiKey with_apiKey]. auto.
Qed.

Lemma over_absorb {T} (d a b : prop T) :
  is_present d = true ->
  over d (over (over d (over a b)) b) = over d (over a b).
Proof. by destruct d, a, b. Qed.

(** The result of a validation, spelled out. *)
Lemma validateAndMergeConfig_fields env cfg c :
  validateAndMergeConfig env cfg = inr c ->
  c = with_apiKey
        (match cfg with Some p => spread DEFAULT_CONFIG p | None => DEFAULT_CONFIG end)
        (apiKey c).
Proof.
  unfold validateAndMergeConfig.
  destruct (str_or _ env) as [k|]; [|done].
  destruct (String.eqb k ""); [done|]. by intros [= <-].
Qed.

(** X2.  What the constructor stores for the optional properties: a property the
    argument carries wins, also when it carries [undefined]; only a property
    the argument lacks takes the default.  The stored object has all six. *)
Theorem constructor_defaults_only_fill_absent env (p : PartialConfig) h m h' :
  new_ConfigManager env (Some p) h = inr (m, h') ->
  exists c,
    h' !! config m = Some c
    /\ complete c = true
    /\ getBaseUrl c
       = match baseUrl_opt p with
         | Absent => Some "https://api.content.tripadvisor.com/api/v1"
         | Present v => v
         end
    /\ getLanguage c = match language_opt p with Absent => Some "en" | Present v => v end
    /\ getCurrency c = match currency_opt p with Absent => Some "USD" | Present v => v end
    /\ getTimeout c = match timeout_opt p with Absent => Some 30000 | Present v => v end
    /\ getRetries c = match retries_opt p with Absent => Some 3 | Present v => v end
    /\ getRetryDelay c = match retryDelay_opt p with Absent => Some 1000 | Present v => v end.
Proof.
  unfold new_ConfigManager.
  destruct (validateAndMergeConfig env (Some p)) as [e|c] eqn:E; [done|].
  intros [= <- <-]. exists c. split; [apply alloc_lookup_new|].
  apply validateAndMergeConfig_fields in E. rewrite E.
  unfold complete, getBaseUrl, getLanguage, getCurrency, getTimeout, getRetries,
    getRetryDelay.
  cbn [with_apiKey spread DEFAULT_CONFIG baseUrl language currency timeout retries retryDelay
       baseUrl_opt language_opt currency_opt timeout_opt retries_opt retryDelay_opt].
  destruct (baseUrl_opt p), (language_opt p), (currency_opt p), (timeout_opt p),
    (retries_opt p), (retryDelay_opt p); cbn; done.
Qed.

(** A constructor argument [{ apiKey: 'k1', retries: undefined }]. *)
Lemma constructor_defaults_only_fill_absent_witness :
  exists c,
    ({[ 1%positive :=
          {| apiKey := "k1";
             baseUrl := Present (Some "https://api.content.tripadvisor.com/api/v1");
             language := Present (Some "en");
             currency := Present (Some "USD");
             timeout := Present (Some 30000);
             retries := Present None;
             retryDelay := Present (Some 1000) |} ]}
       : gmap positive TripAdvisorConfig)
    !! config {| config := 1%positive |} = Some c
    /\ complete c = true
    /\ getBaseUrl c = Some "https://api.content.tripadvisor.com/api/v1"
    /\ getLanguage c = Some "en"
    /\ getCurrency c = Some "USD"
    /\ getTimeout c = Some 30000
    /\ getRetries c = None
    /\ getRetryDelay c = Some 1000.
Proof.
  apply (constructor_defaults_only_fill_absent None
           {| apiKey_opt := Present (Some "k1"); baseUrl_opt := Absent;
              language_opt := Absent; currency_opt := Absent; timeout_opt := Absent;
              retries_opt := Present None; retryDelay_opt := Absent |}
           ∅ {| config := 1%positive |}).
  vm_compute. reflexivity.
Defined.

(** X3.  An update keeps every property it does not mention and stores every
    property it mentions (also [undefined]); the defaults do not come back.
    This needs the stored object to have all its properties, which every
    validated configuration has. *)
Theorem update_keeps_unmentioned_fields env (u : PartialConfig) m h c m' h' :
  h !! config m = Some c ->
  complete c = true ->
  updateConfig env u m h = Some (inr tt, m', h') ->
  exists c',
    h' !! config m' = Some c'
    /\ complete c' = true
    /\ baseUrl c' = over (baseUrl c) (baseUrl_opt u)
    /\ language c' = over (language c) (language_opt u)
    /\ currency c' = over (currency c) (currency_opt u)
    /\ timeout c' = over (timeout c) (timeout_opt u)
    /\ retries c' = over (retries c) (retries_opt u)
    /\ retryDelay c' = over (retryDelay c) (retryDelay_opt u).
Proof.
  intros Hc Hcomplete Hu.
  destruct (updateConfig_cases env u m h c Hc) as [[Hf _]|(c' & Hv & Hs)]; [congruence|].
  rewrite Hs in Hu. injection Hu as <- <-.
  exists c'. split; [apply alloc_lookup_new|].
  apply validateAndMergeConfig_fields in Hv. rewrite Hv.
  unfold complete in *.
  cbn [with_apiKey spread as_partial DEFAULT_CONFIG
       baseUrl language currency timeout retries retryDelay
       baseUrl_opt language_opt currency_opt timeout_opt retries_opt retryDelay_opt].
  destruct (baseUrl c), (language c), (currency c), (timeout c), (retries c),
    (retryDelay c); try discriminate.
  destruct (baseUrl_opt u), (language_opt u), (currency_opt u), (timeout_opt u),
    (retries_opt u), (retryDelay_opt u); cbn; done.
Qed.

(** The test's update [{ timeout: 60000 }] of a manager built from
    [{ apiKey: 'k1' }]. *)
Lemma update_keeps_unmentioned_fields_witness :
  exists c',
    ({[ 1%positive := with_apiKey DEFAULT_CONFIG "k1";
        2%positive :=
          {| apiKey := "k1";
             baseUrl := Present (Some "https://api.content.tripadvisor.com/api/v1");
             language := Present (Some "en");
             currency := Present (Some "USD");
             timeout := Present (Some 60000);
             retries := Present (Some 3);
             retryDelay := Present (Some 1000) |} ]}
       : gmap positive TripAdvisorConfig)
    !! config {| config := 2%positive |} = Some c'
    /\ complete c' = true
    /\ baseUrl c' = over (baseUrl (with_apiKey DEFAULT_CONFIG "k1")) Absent
    /\ language c' = over (language (with_apiKey DEFAULT_CONFIG "k1")) Absent
    /\ currency c' = over (currency (with_apiKey DEFAULT_CONFIG "k1")) Absent
    /\ timeout c' = over (timeout (with_apiKey DEFAULT_CONFIG "k1")) (Present (Some 60000))
    /\ retries c' = over (retries (with_apiKey DEFAULT_CONFIG "k1")) Absent
    /\ retryDelay c' = over (retryDelay (with_apiKey DEFAULT_CONFIG "k1")) Absent.
Proof.
  apply (update_keeps_unmentioned_fields None
           {| apiKey_opt := Absent; baseUrl_opt := Absent; language_opt := Absent;
              currency_opt := Absent; timeout_opt := Present (Some 60000);
              retries_opt := Absent; retryDelay_opt := Absent |}
           mgr_k1 heap_k1 (with_apiKey DEFAULT_CONFIG "k1") {| config := 2%positive |}).
  - reflexivity.
  - reflexivity.
  - vm_compute. reflexivity.
Defined.

(** X4.  An update that does not mention [apiKey], or that gives a non-empty one,
    never throws, whatever the environment holds: the credential afterwards
    is the stored one, respectively the given one. *)
Theorem update_with_usable_key_succeeds env (u : PartialConfig) m h c :
  h !! config m = Some c ->
  apiKey c <> "" ->
  (apiKey_opt u = Absent ->
   exists m' h', updateConfig env u m h = Some (inr tt, m', h')
                 /\ getApiKey m' h' = Some (apiKey c))
  /\ (forall k, apiKey_opt u = Present (Some k) -> k <> "" ->
      exists m' h', updateConfig env u m h = Some (inr tt, m', h')
                    /\ getApiKey m' h' = Some k).
Proof.
  intros Hc Hkey.
  assert (Hgo : forall k, k <> "" ->
            read (over (Present (Some (apiKey c))) (apiKey_opt u)) = Some k ->
            exists m' h', updateConfig env u m h = Some (inr tt, m', h')
                          /\ getApiKey m' h' = Some k).
  { intros k Hk Hread.
    pose proof (credential_resolution_order env (Some (spread (as_partial c) u))) as Hres.
    cbv zeta in Hres. cbn [from_option spread as_partial apiKey_opt] in Hres.
    rewrite Hread in Hres.
    destruct (updateConfig_cases env u m h c Hc) as [[_ Hv]|(c' & Hv & Hs)];
      rewrite Hv in Hres.
    - destruct Hres as (_ & [Hn|Hn] & _); congruence.
    - eexists _, _. split; [exact Hs|]. rewrite getApiKey_alloc.
      destruct Hres as (_ & [Hg|[[Hn|Hn] _]]); congruence. }
  split.
  - intros Hu. apply Hgo; [done|]. by rewrite Hu.
  - intros k Hu Hk. apply Hgo; [done|]. by rewrite Hu.
Qed.

(** [updateConfig({ apiKey: 'new-key' })] with an empty environment variable. *)
Lemma update_with_usable_key_succeeds_witness :
  exists m' h', updateConfig (Some "") (only_apiKey "new-key") mgr_k1 heap_k1
                = Some (inr tt, m', h')
                /\ getApiKey m' h' = Some "new-key".
Proof.
  refine (proj2 (update_with_usable_key_succeeds (Some "") (only_apiKey "new-key")
                   mgr_k1 heap_k1 (with_apiKey DEFAULT_CONFIG "k1") _ _) "new-key" _ _).
  - reflexivity.
  - discriminate.
  - reflexivity.
  - discriminate.
Defined.

(** X5.  An update never writes to an object that exists: the copy a caller got
    from [getConfig] before the update, and the object that was stored, keep
    their fields, whether the update succeeds or throws. *)
Theorem update_leaves_earlier_copies env (u : PartialConfig) m h c :
  h !! config m = Some c ->
  exists r h1,
    getConfig m h = Some (r, h1)
    /\ forall res m' h2,
         updateConfig env u m h1 = Some (res, m', h2) ->
         h2 !! r = Some c /\ h2 !! config m = Some c.
Proof.
  intros Hc. exists (alloc c h).1, (alloc c h).2.
  split; [unfold getConfig; by rewrite Hc|].
  assert (Hlive : (alloc c h).2 !! config m = Some c).
  { rewrite alloc_lookup_old; [done|by exists c]. }
  intros res m' h2 Hu.
  destruct (updateConfig_cases env u m _ c Hlive) as [[Hf _]|(c' & _ & Hs)].
  - rewrite Hf in Hu. injection Hu as <- <- <-. split; [apply alloc_lookup_new|done].
  - rewrite Hs in Hu. injection Hu as <- <- <-. split.
    + transitivity ((alloc c h).2 !! (alloc c h).1); [|apply alloc_lookup_new].
      apply (alloc_lookup_old c' (alloc c h).2). exists c. apply alloc_lookup_new.
    + transitivity ((alloc c h).2 !! config m); [|done].
      apply (alloc_lookup_old c' (alloc c h).2). by exists c.
Qed.

(** A copy taken before [updateConfig({ apiKey: 'new-key' })]. *)
Lemma update_leaves_earlier_copies_witness :
  exists r h1,
    getConfig mgr_k1 heap_k1 = Some (r, h1)
    /\ forall res m' h2,
         updateConfig None (only_apiKey "new-key") mgr_k1 h1 = Some (res, m', h2) ->
         h2 !! r = Some (with_apiKey DEFAULT_CONFIG "k1")
         /\ h2 !! config mgr_k1 = Some (with_apiKey DEFAULT_CONFIG "k1").
Proof.
  apply (update_leaves_earlier_copies None (only_apiKey "new-key") mgr_k1 heap_k1
           (with_apiKey DEFAULT_CONFIG "k1")).
  reflexivity.
Defined.

(** X6.  Applying the same update a second time changes nothing: it succeeds
    again and stores a configuration equal to the one the first stored. *)
Theorem updateConfig_twice_same env (u : PartialConfig) m h c m1 h1 :
  h !! config m = Some c ->
  updateConfig env u m h = Some (inr tt, m1, h1) ->
  exists m2 h2,
    updateConfig env u m1 h1 = Some (inr tt, m2, h2)
    /\ h2 !! config m2 = h1 !! config m1.
Proof.
  intros Hc Hu.
  destruct (updateConfig_cases env u m h c Hc) as [[Hf _]|(c1 & Hv & Hs)]; [congruence|].
  rewrite Hs in Hu. injection Hu as <- <-.
  assert (Hc1 : (alloc c1 h).2 !! config {| config := (alloc c1 h).1 |} = Some c1)
    by apply alloc_lookup_new.
  assert (Hagain : validateAndMergeConfig env (Some (spread (as_partial c1) u)) = inr c1).
  { clear Hs Hc1 Hc. revert Hv. unfold validateAndMergeConfig.
    cbn [from_option spread as_partial apiKey_opt].
    destruct (str_or (read (over (Present (Some (apiKey c))) (apiKey_opt u))) env)
      as [k|] eqn:Ek; [|done].
    destruct (String.eqb_spec k "") as [|Hk]; [done|].
    intros [= <-]. cbn [apiKey with_apiKey].
    assert (Hsame : str_or (read (over (Present (Some k)) (apiKey_opt u))) env = Some k).
    { destruct (apiKey_opt u) as [|g]; cbn [over read] in *; [|exact Ek].
      cbn [str_or]. by destruct (String.eqb_spec k ""). }
    rewrite Hsame. destruct (String.eqb_spec k ""); [done|].
    f_equal. unfold with_apiKey.
    cbn [spread as_partial DEFAULT_CONFIG
         baseUrl language currency timeout retries retryDelay
         baseUrl_opt language_opt currency_opt timeout_opt retries_opt retryDelay_opt].
    f_equal; by apply over_absorb. }
  destruct (updateConfig_cases env u _ _ c1 Hc1) as [[_ Hf]|(c2 & Hv2 & Hs2)]; [congruence|].
  rewrite Hagain in Hv2. injection Hv2 as <-.
  eexists _, _. split; [exact Hs2|].
  cbn [config]. by rewrite !alloc_lookup_new.
Qed.

(** The update [{ timeout: 60000 }], twice. *)
Lemma updateConfig_twice_same_witness :
  exists m2 h2,
    updateConfig None
      {| apiKey_opt := Absent; baseUrl_opt := Absent; language_opt := Absent;
         currency_opt := Absent; timeout_opt := Present (Some 60000);
         retries_opt := Absent; retryDelay_opt := Absent |}
      {| config := 2%positive |}
      ({[ 1%positive := with_apiKey DEFAULT_CONFIG "k1";
          2%positive :=
            {| apiKey := "k1";
               baseUrl := Present (Some "https://api.content.tripadvisor.com/api/v1");
               language := Present (Some "en");
               currency := Present (Some "USD");
               timeout := Present (Some 60000);
               retries := Present (Some 3);
               retryDelay := Present (Some 1000) |} ]}
         : gmap positive TripAdvisorConfig)
    = Some (inr tt, m2, h2)
    /\ h2 !! config m2
       = ({[ 1%positive := with_apiKey DEFAULT_CONFIG "k1";
             2%positive :=
               {| apiKey := "k1";
                  baseUrl := Present (Some "https://api.content.tripadvisor.com/api/v1");
                  language := Present (Some "en");
                  currency := Present (Some "USD");
                  timeout := Present (Some 60000);
                  retries := Present (Some 3);
                  retryDelay := Present (Some 1000) |} ]}
            : gmap positive TripAdvisorConfig)
         !! config {| config := 2%positive |}.
Proof.
  apply (updateConfig_twice_same None
           {| apiKey_opt := Absent; baseUrl_opt := Absent; language_opt := Absent;
              currency_opt := Absent; timeout_opt := Present (Some 60000);
              retries_opt := Absent; retryDelay_opt := Absent |}
           mgr_k1 heap_k1 (with_apiKey DEFAULT_CONFIG "k1")).
  - reflexivity.
  - vm_compute. reflexivity.
Defined.

End ConfigMore.

(* ===================================================================== *)
(** ** More on the classification of bodies *)
(* ===================================================================== *)

Section ClassifierMore.

(** X7.  A body that [isApiError] does not recognise still gives an error when
    handed to [fromApiResponse]: the placeholder text, no code, no type, and
    the API flag set.  This covers [null], [undefined], scalars and objects
    without a truthy [error] or [Message]. *)
Theorem fromApiResponse_of_unrecognised_body (data : value) :
  isApiError data = false ->
  fromApiResponse data = TripAdvisorError "Unknown API error" VUndefined VUndefined true.
Proof.
  unfold isApiError, or_else, fromApiResponse.
  destruct (truthy (get data "error")) eqn:He.
  - intros H. rewrite H in He. discriminate.
  - intros Hm. rewrite Hm. reflexivity.
Qed.

(** The test's [{ someOtherProperty: 'value' }]. *)
Lemma fromApiResponse_of_unrecognised_body_witness :
  fromApiResponse (VObj [("someOtherProperty", VStr "value")])
  = TripAdvisorError "Unknown API error" VUndefined VUndefined true.
Proof.
  apply (fromApiResponse_of_unrecognised_body (VObj [("someOtherProperty", VStr "value")])).
  reflexivity.
Defined.

(** X8.  When the [error] field is an object, the error is built from that object
    alone: a top-level [Message], [code] or [type] beside it has no effect. *)
Theorem error_object_alone_decides (data : value) :
  is_object (get data "error") = true ->
  fromApiResponse data = fromApiResponse (VObj [("error", get data "error")]).
Proof.
  intros Ho.
  rewrite (fromApiResponse_envelope data (or_introl Ho)), Ho.
  rewrite (fromApiResponse_envelope (VObj [("error", get data "error")])).
  - cbn [get assoc String.eqb Ascii.eqb Bool.eqb]. by rewrite Ho.
  - left. cbn [get assoc String.eqb Ascii.eqb Bool.eqb]. exact Ho.
Qed.

(** An [error] object next to a top-level [Message] and [code]. *)
Lemma error_object_alone_decides_witness :
  fromApiResponse
    (VObj [("Message", VStr "outer"); ("code", VNum 1);
           ("error", VObj [("message", VStr "inner"); ("code", VNum 2)])])
  = fromApiResponse (VObj [("error", VObj [("message", VStr "inner"); ("code", VNum 2)])]).
Proof.
  apply (error_object_alone_decides
           (VObj [("Message", VStr "outer"); ("code", VNum 1);
                  ("error", VObj [("message", VStr "inner"); ("code", VNum 2)])])).
  reflexivity.
Defined.

Variable net : network.
Variables (url method : string) (headers : gmap string string).
Variable responseSchema : ZodSchema value.
Variables (retryDelay timeout : option Z).

(** X9.  A body whose [error] field is truthy but not an object (a text, a
    number, [true]) and whose [Message] is falsy is classified as an API
    error, yet nothing of it reaches the caller: the call fails at once,
    after one exchange and without the response validator, with the
    placeholder error that has no code and no type. *)
Theorem scalar_error_field_gives_placeholder
    (t : trace) (response : Response) (data : value) (r : Z) :
  net (fetch_count t) url = Responds response ->
  ok response = true ->
  body response = inr data ->
  truthy (get data "error") = true ->
  is_object (get data "error") = false ->
  truthy (get data "Message") = false ->
  0 <= r ->
  sendWithRetry net url method headers responseSchema (Some r) retryDelay timeout t
  = (Rejected (Some (TripAdvisorError "Unknown API error" VUndefined VUndefined true)),
     (t ++ [Call_fetch url method timeout])%list).
Proof.
  intros Hnet Hok Hbody He Ho Hm Hr.
  assert (Hfrom : fromApiResponse data
                  = TripAdvisorError "Unknown API error" VUndefined VUndefined true).
  { unfold fromApiResponse. rewrite Ho, andb_false_r, Hm. reflexivity. }
  apply first_attempt_final; [exact Hr| |right; reflexivity].
  rewrite (attempt_body _ _ _ _ _ _ t response data Hnet Hok Hbody).
  unfold isApiError, or_else. rewrite He, He, Hfrom. reflexivity.
Qed.

End ClassifierMore.

(** The body [{ error: 'Invalid API key', code: 401 }]. *)
Lemma scalar_error_field_gives_placeholder_witness :
  sendWithRetry (always 200 "OK" (VObj [("error", VStr "Invalid API key"); ("code", VNum 401)]))
    "u" "GET" ∅ accept_all (Some 3) (Some 1000) (Some 30000) []
  = (Rejected (Some (TripAdvisorError "Unknown API error" VUndefined VUndefined true)),
     ([] ++ [Call_fetch "u" "GET" (Some 30000)])%list).
Proof.
  apply (scalar_error_field_gives_placeholder
           (always 200 "OK" (VObj [("error", VStr "Invalid API key"); ("code", VNum 401)]))
           "u" "GET" ∅ accept_all (Some 1000) (Some 30000) []
           {| status := 200; statusText := "OK";
              body := inr (VObj [("error", VStr "Invalid API key"); ("code", VNum 401)]) |}
           (VObj [("error", VStr "Invalid API key"); ("code", VNum 401)]) 3);
    try reflexivity.
  lia.
Defined.

(* ===================================================================== *)
(** ** More on the retry loop *)
(* ===================================================================== *)

(** X10.  A header the caller gives replaces the default of the same name; the two
    defaults are sent otherwise, and no other header is added. *)
Theorem buildHeaders_custom_wins (customHeaders : gmap string string) (k : string) :
  buildHeaders customHeaders !! k
  = match customHeaders !! k with
    | Some v => Some v
    | None =>
        if decide (k = "Accept") then Some "application/json"
        else if decide (k = "Content-Type") then Some "application/json"
        else None
    end.
Proof.
  unfold buildHeaders. rewrite lookup_union.
  destruct (customHeaders !! k) as [v|] eqn:E.
  - match goal with |- Some v ∪ ?x = _ => by destruct x end.
  - rewrite (left_id_L None _). rewrite lookup_insert.
    destruct (decide ("Accept" = k)) as [<-|Hne].
    + by rewrite decide_True.
    + rewrite decide_False by congruence.
      rewrite lookup_singleton.
      destruct (decide ("Content-Type" = k)) as [<-|Hne'].
      * by rewrite decide_True.
      * by rewrite decide_False by congruence.
Qed.

Section RetryMore.

Variable net : network.
Variables (url method : string) (headers : gmap string string).
Variable responseSchema : ZodSchema value.
Variables (retryDelay timeout : option Z).

Local Abbreviation attempt_at t :=
  (attempt_once net url method headers responseSchema timeout t).
Local Abbreviation loop fuel retries a last t :=
  (retry_loop net fuel url method headers responseSchema retries retryDelay timeout a last t).
Local Abbreviation the_fetch := (Call_fetch url method timeout).

Lemma delays_app (t1 t2 : trace) : delays (t1 ++ t2)%list = (delays t1 ++ delays t2)%list.
Proof.
  induction t1 as [|c t1 IH]; [done|].
  destruct c; cbn [app delays]; by rewrite IH.
Qed.

(** What one attempt adds to the trace: its exchange, then at most the call
    of the response schema. *)
Lemma attempt_added (t t1 : trace) x :
  attempt_at t = (x, t1) ->
  exists new,
    t1 = (t ++ new)%list
    /\ List.filter is_fetch new = [the_fetch]
    /\ delays new = []
    /\ fetches_and_waits new = [the_fetch].
Proof.
  unfold attempt_once, sendRequest.
  destruct (settle _) as [e|response]; [intros [= _ <-]; by eexists|].
  destruct (body response) as [msg|data]; [intros [= _ <-]; by eexists|].
  destruct (isApiError data); [intros [= _ <-]; by eexists|].
  destruct (parse responseSchema data); intros [= _ <-];
    rewrite <- app_assoc; by eexists.
Qed.

Lemma loop_shape (r : Z) :
  forall (fuel i : nat) (last : option error) (t : trace) res t',
    Z.of_nat i <= r ->
    (Z.to_nat (r - Z.of_nat i) < fuel)%nat ->
    loop fuel (Some r) (Z.of_nat i) last t = (res, t') ->
    exists new (j : nat),
      t' = (t ++ new)%list
      /\ Z.of_nat (i + j) <= r
      /\ List.filter is_fetch new = repeat the_fetch (S j)
      /\ delays new = map (fun n => backoff retryDelay (Z.of_nat n)) (seq i j)
      /\ fetches_and_waits new
         = the_fetch
           :: flat_map (fun n => [Call_delay (backoff retryDelay (Z.of_nat n)); the_fetch])
                (seq i j).
Proof.
  induction fuel as [|fuel IH]; intros i last t res t' Hi Hfuel; [lia|].
  rewrite loop_step. unfold within, is_last. cbn [from_option].
  replace (Z.of_nat i <=? r) with true by (symmetry; apply Z.leb_le; lia).
  destruct (attempt_at t) as [[e|v] t1] eqn:Hatt;
    destruct (attempt_added _ _ _ Hatt) as (new1 & -> & Hf1 & Hd1 & Hw1).
  2:{ intros [= <- <-]. exists new1, O. rewrite Nat.add_0_r. done. }
  assert (Hstop : forall res t', (Rejected (Some e), (t ++ new1)%list) = (res, t') ->
            exists new (j : nat),
              t' = (t ++ new)%list /\ Z.of_nat (i + j) <= r
              /\ List.filter is_fetch new = repeat the_fetch (S j)
              /\ delays new = map (fun n => backoff retryDelay (Z.of_nat n)) (seq i j)
              /\ fetches_and_waits new
                 = the_fetch
                   :: flat_map
                        (fun n => [Call_delay (backoff retryDelay (Z.of_nat n)); the_fetch])
                        (seq i j)).
  { intros ? ? [= <- <-]. exists new1, O. rewrite Nat.add_0_r. done. }
  destruct (Z.eqb_spec (Z.of_nat i) r) as [Heq|Hne]; [apply Hstop|].
  destruct (isRetryableError e); cbn [negb]; [|apply Hstop].
  replace (Z.of_nat i + 1) with (Z.of_nat (S i)) by lia.
  intros Hrun. apply IH in Hrun as (new & j & -> & Hj & Hf & Hd & Hw); [|lia|lia].
  exists (new1 ++ [Call_delay (backoff retryDelay (Z.of_nat i))] ++ new)%list, (S j).
  split; [by rewrite <- !app_assoc|]. split; [lia|]. split; [|split].
  - rewrite !List.filter_app, Hf1, Hf. reflexivity.
  - rewrite !delays_app, Hd1, Hd. reflexivity.
  - unfold fetches_and_waits in *. rewrite !List.filter_app, Hw1, Hw. reflexivity.
Qed.


(** The loop up to its first final outcome. *)
Lemma loop_until_final (N : nat) (final : error + value) :
  forall (k i fuel : nat) (last : option error) (t : trace),
    (i + k <= N)%nat ->
    (N - i < fuel)%nat ->
    (forall j, (j < k)%nat -> forall t0, fetch_count t0 = (fetch_count t + j)%nat ->
       exists e, (attempt_at t0).1 = inl e /\ isRetryableError e = true) ->
    (forall t0, fetch_count t0 = (fetch_count t + k)%nat -> (attempt_at t0).1 = final) ->
    match final with
    | inr _ => True
    | inl e => isRetryableError e = false \/ (i + k)%nat = N
    end ->
    exists t',
      loop fuel (Some (Z.of_nat N)) (Z.of_nat i) last t
      = (match final with inr v => Resolved v | inl e => Rejected (Some e) end, t')
      /\ fetch_count t' = (fetch_count t + k + 1)%nat.
Proof.
  induction k as [|k IH]; intros i fuel last t Hik Hfuel Hretry Hfinal Hstop;
    (destruct fuel as [|fuel]; [lia|]);
    rewrite loop_step; unfold within, is_last; cbn [from_option];
    replace (Z.of_nat i <=? Z.of_nat N) with true by (symmetry; apply Z.leb_le; lia);
    pose proof (attempt_fetch_count net url method headers responseSchema timeout t) as Hcount;
    destruct (attempt_at t) as [x t1] eqn:Hatt; cbn [snd] in Hcount.
  - specialize (Hfinal t ltac:(lia)). rewrite Hatt in Hfinal. cbn [fst] in Hfinal. subst x.
    destruct final as [e|v].
    + destruct (Z.eqb_spec (Z.of_nat i) (Z.of_nat N)).
      * exists t1. split; [done|lia].
      * destruct Hstop as [Hnr|Hlast]; [|lia]. rewrite Hnr. cbn [negb].
        exists t1. split; [done|lia].
    + exists t1. split; [done|lia].
  - destruct (Hretry O ltac:(lia) t ltac:(lia)) as (e & He & Hre).
    rewrite Hatt in He. cbn [fst] in He. subst x.
    replace (Z.of_nat i =? Z.of_nat N) with false by (symmetry; apply Z.eqb_neq; lia).
    rewrite Hre. cbn [negb].
    replace (Z.of_nat i + 1) with (Z.of_nat (S i)) by lia.
    set (t2 := (t1 ++ [Call_delay (backoff retryDelay (Z.of_nat i))])%list).
    assert (Hc2 : fetch_count t2 = S (fetch_count t)).
    { unfold t2. rewrite fetch_count_app, Hcount. cbn. lia. }
    destruct (IH (S i) fuel (Some e) t2) as (t' & Hrun & Hc).
    + lia.
    + lia.
    + intros j Hj t0 Ht0. apply (Hretry (S j)); [lia|]. rewrite Ht0, Hc2. lia.
    + intros t0 Ht0. apply Hfinal. rewrite Ht0, Hc2. lia.
    + destruct final; [|done]. destruct Hstop as [?|?]; [by left|right; lia].
    + exists t'. split; [exact Hrun|]. rewrite Hc, Hc2. lia.
Qed.

(** X12.  The call ends with the first attempt that succeeds, or that fails with
    an error not classified as retryable, or that is the last the budget
    allows: when the [k] attempts before it fail with retryable errors, its
    result is the result of the call, after exactly [k + 1] exchanges. *)
Theorem call_ends_at_first_final_attempt (N k : nat) (final : error + value) (t : trace) :
  (k <= N)%nat ->
  (forall j, (j < k)%nat -> forall t0, fetch_count t0 = (fetch_count t + j)%nat ->
     exists e, (attempt_at t0).1 = inl e /\ isRetryableError e = true) ->
  (forall t0, fetch_count t0 = (fetch_count t + k)%nat -> (attempt_at t0).1 = final) ->
  match final with
  | inr _ => True
  | inl e => isRetryableError e = false \/ k = N
  end ->
  exists t',
    sendWithRetry net url method headers responseSchema
      (Some (Z.of_nat N)) retryDelay timeout t
    = (match final with inr v => Resolved v | inl e => Rejected (Some e) end, t')
    /\ fetch_count t' = (fetch_count t + k + 1)%nat.
Proof.
  intros Hk Hretry Hfinal Hstop. unfold sendWithRetry.
  change 0 with (Z.of_nat 0).
  apply loop_until_final; try done.
  - unfold iterations. cbn [from_option]. lia.
Qed.

(** A resolved attempt: the value is what the response schema made of a
    decoded body that is not an API error. *)
Lemma attempt_resolved (t t1 : trace) (v : value) :
  attempt_at t = (inr v, t1) ->
  exists response data,
    net (fetch_count t) url = Responds response
    /\ ok response = true
    /\ body response = inr data
    /\ isApiError data = false
    /\ parse responseSchema data = inr v
    /\ t1 = (t ++ [Call_fetch url method timeout; Call_responseParse data])%list.
Proof.
  unfold attempt_once, sendRequest, settle.
  destruct (net (fetch_count t) url) as [n m|response] eqn:Hnet; [done|].
  destruct (ok response) eqn:Hok; [|done].
  destruct (body response) as [msg|data] eqn:Hb; [done|].
  destruct (isApiError data) eqn:Hno; [done|].
  destruct (parse responseSchema data) as [z|w] eqn:Hp; [done|].
  intros [= <- <-]. exists response, data. rewrite <- app_assoc. done.
Qed.

Lemma loop_resolved_by_validation retries :
  forall (fuel : nat) (a : Z) (last : option error) (t : trace) v t',
    loop fuel retries a last t = (Resolved v, t') ->
    exists k response data,
      net (fetch_count (t ++ k)%list) url = Responds response
      /\ ok response = true
      /\ body response = inr data
      /\ isApiError data = false
      /\ parse responseSchema data = inr v
      /\ t' = ((t ++ k) ++ [Call_fetch url method timeout; Call_responseParse data])%list.
Proof.
  induction fuel as [|fuel IH]; intros a last t v t'; [done|].
  rewrite loop_step. destruct (within a retries); [|done].
  destruct (attempt_at t) as [[e|w] t1] eqn:Hatt.
  - destruct (is_last a retries); [done|].
    destruct (negb (isRetryableError e)); [done|].
    destruct (attempt_added _ _ _ Hatt) as (new1 & -> & _).
    intros Hrun. apply IH in Hrun as (k & response & data & Hnet & Hok & Hb & Hno & Hp & ->).
    exists (new1 ++ [Call_delay (backoff retryDelay a)] ++ k)%list, response, data.
    rewrite <- !app_assoc in *. done.
  - intros [= <- <-].
    destruct (attempt_resolved _ _ _ Hatt) as (response & data & Hnet & Hok & Hb & Hno & Hp & ->).
    exists [], response, data. rewrite app_nil_r. done.
Qed.

End RetryMore.


(** Scenario B: two timeouts, then [{ data: [] }], with a budget of two. *)
Lemma call_ends_at_first_final_attempt_witness :
  exists t',
    sendWithRetry (aborted_then 2 (VObj [("data", VArr [])])) "u" "GET" ∅ accept_all
      (Some (Z.of_nat 2)) (Some 1000) (Some 30000) []
    = (Resolved (VObj [("data", VArr [])]), t')
    /\ fetch_count t' = (fetch_count [] + 2 + 1)%nat.
Proof.
  apply (call_ends_at_first_final_attempt (aborted_then 2 (VObj [("data", VArr [])]))
           "u" "GET" ∅ accept_all (Some 1000) (Some 30000) 2 2
           (inr (VObj [("data", VArr [])])) []).
  - lia.
  - intros j Hj t0 Ht0. exists (JsError "AbortError" "This operation was aborted").
    unfold attempt_once, sendRequest. rewrite Ht0.
    destruct j as [|[|j]]; [split; reflexivity | split; reflexivity | lia].
  - intros t0 Ht0. unfold attempt_once, sendRequest. rewrite Ht0. reflexivity.
  - exact I.
Defined.


(* ===================================================================== *)
(** ** More on [request] *)
(* ===================================================================== *)

Section RequestMore.

Variable net : network.
Variable cfg : TripAdvisorConfig.

(** X13.  A value [request] resolves with has passed both validations: the payload
    schema accepted the payload, an exchange for the built URL answered with
    a 2xx status and a decodable body, the body was not an API error, and the
    value is what the response schema returned for it.  The validation of
    that body is the last call of the run. *)
Theorem resolved_value_passed_both_schemas
    endpoint (payload : record) (ps : ZodSchema record) (rs : ZodSchema value)
    (options : RequestOptions) (t : trace) (v : value) (t' : trace) :
  request net cfg endpoint payload ps rs options t = (Resolved v, t') ->
  exists validated k response data,
    parse ps (VObj payload) = inr validated
    /\ net (fetch_count (t ++ Call_buildUrl endpoint :: k)%list)
           (buildUrl cfg endpoint validated)
       = Responds response
    /\ ok response = true
    /\ body response = inr data
    /\ isApiError data = false
    /\ parse rs data = inr v
    /\ t' = ((t ++ Call_buildUrl endpoint :: k)
             ++ [Call_fetch (buildUrl cfg endpoint validated)
                   (default "GET" (method options))
                   (from_option Some (getTimeout cfg) (opt_timeout options));
                 Call_responseParse data])%list.
Proof.
  unfold request.
  destruct (parse ps (VObj payload)) as [z|validated]; [done|].
  unfold sendWithRetry. intros Hrun.
  apply loop_resolved_by_validation in Hrun
    as (k & response & data & Hnet & Hok & Hb & Hno & Hp & ->).
  exists validated, k, response, data.
  rewrite <- !app_assoc in *. done.
Qed.

(** X14.  Without a usable budget nothing is sent.  When the retry count in force
    is [undefined] (the configuration was given [retries: undefined] and the
    call no option) or below zero, a call with a valid payload builds the
    URL, makes no exchange and no wait, and throws [undefined]. *)
Theorem unusable_budget_sends_nothing
    endpoint (payload : record) (ps : ZodSchema record) (rs : ZodSchema value)
    (options : RequestOptions) (t : trace) (validated : record) :
  parse ps (VObj payload) = inr validated ->
  match from_option Some (getRetries cfg) (opt_retries options) with
  | None => True
  | Some r => r < 0
  end ->
  request net cfg endpoint payload ps rs options t
  = (Rejected None, (t ++ [Call_buildUrl endpoint])%list).
Proof.
  intros Hp Hbudget. unfold request. rewrite Hp. unfold sendWithRetry.
  destruct (from_option Some (getRetries cfg) (opt_retries options)) as [r|].
  - rewrite loop_step. unfold within. cbn [from_option].
    replace (0 <=? r) with false by (symmetry; apply Z.leb_gt; lia). reflexivity.
  - reflexivity.
Qed.

End RequestMore.

(** The body [{ data: [] }] at the first exchange. *)
Lemma resolved_value_passed_both_schemas_witness :
  exists validated k response data,
    parse (object_schema search_shape) (VObj [("searchQuery", VStr "Paris")]) = inr validated
    /\ always 200 "OK" (VObj [("data", VArr [])])
         (fetch_count ([] ++ Call_buildUrl "/location/search" :: k)%list)
         (buildUrl cfg_k1 "/location/search" validated)
       = Responds response
    /\ ok response = true
    /\ body response = inr data
    /\ isApiError data = false
    /\ parse accept_all data = inr (VObj [("data", VArr [])])
    /\ [Call_buildUrl "/location/search";
        Call_fetch "https://api.example/v1/location/search?key=k1&searchQuery=Paris"
          "GET" (Some 30000);
        Call_responseParse (VObj [("data", VArr [])])]
       = (([] ++ Call_buildUrl "/location/search" :: k)
          ++ [Call_fetch (buildUrl cfg_k1 "/location/search" validated)
                (default "GET" (method no_options))
                (from_option Some (getTimeout cfg_k1) (opt_timeout no_options));
              Call_responseParse data])%list.
Proof.
  apply (resolved_value_passed_both_schemas (always 200 "OK" (VObj [("data", VArr [])]))
           cfg_k1 "/location/search" [("searchQuery", VStr "Paris")]
           (object_schema search_shape) accept_all no_options []).
  vm_compute. reflexivity.
Defined.

(** A configuration built with [retries: undefined]: no exchange. *)
Lemma unusable_budget_sends_nothing_witness :
  request (always 200 "OK" (VObj [("data", VArr [])])) cfg_no_retries "/location/search"
    [("searchQuery", VStr "Paris")] (object_schema search_shape) accept_all no_options []
  = (Rejected None, ([] ++ [Call_buildUrl "/location/search"])%list).
Proof.
  apply (unusable_budget_sends_nothing (always 200 "OK" (VObj [("data", VArr [])]))
           cfg_no_retries "/location/search" [("searchQuery", VStr "Paris")]
           (object_schema search_shape) accept_all no_options []
           [("searchQuery", VStr "Paris")]).
  - reflexivity.
  - exact I.
Defined.

(* ===================================================================== *)
(** ** The query string read back *)
(* ===================================================================== *)

Section QueryFacts.

Lemma append_cons (x : ascii) (a b : string) : String x a ++ b = String x (a ++ b).
Proof. reflexivity. Qed.

Lemma append_nil (b : string) : "" ++ b = b.
Proof. reflexivity. Qed.

Lemma occurs_app (c : ascii) (a b : string) :
  occurs c (a ++ b) = occurs c a || occurs c b.
Proof.
  induction a as [|x a IH]; [done|].
  rewrite append_cons. cbn [occurs]. rewrite IH. apply orb_assoc.
Qed.

(** The serializer writes neither [&] nor [=] inside a name or a value. *)
Lemma encode_byte_no_separator (c : ascii) :
  occurs "&" (encode_byte c) = false /\ occurs "=" (encode_byte c) = false.
Proof. destruct c as [[] [] [] [] [] [] [] []]; split; reflexivity. Qed.

Lemma encode_no_separator (s : string) :
  occurs "&" (encode s) = false /\ occurs "=" (encode s) = false.
Proof.
  induction s as [|c s [IH1 IH2]]; [done|].
  cbn [encode]. rewrite !occurs_app, IH1, IH2.
  destruct (encode_byte_no_separator c) as [-> ->]. done.
Qed.

Lemma decode_encode_byte (c : ascii) (rest : string) :
  decode (encode_byte c ++ rest) = String c (decode rest).
Proof. destruct c as [[] [] [] [] [] [] [] []]; reflexivity. Qed.

(** Decoding undoes the encoding of any text. *)
Lemma decode_encode (s : string) : decode (encode s) = s.
Proof.
  induction s as [|c s IH]; [done|].
  cbn [encode]. by rewrite decode_encode_byte, IH.
Qed.

Lemma cut_at_separator (sep : ascii) (a b : string) :
  occurs sep a = false -> cut sep (a ++ String sep b) = (a, b).
Proof.
  induction a as [|x a IH].
  - intros _. rewrite append_nil. cbn [cut]. by rewrite Ascii.eqb_refl.
  - intros H. cbn [occurs] in H. apply orb_false_iff in H as [Hx Ha].
    rewrite append_cons. cbn [cut]. rewrite Ascii.eqb_sym, Hx, (IH Ha). done.
Qed.

Lemma split_on_free (sep : ascii) (a : string) :
  occurs sep a = false -> split_on sep a = [a].
Proof.
  induction a as [|x a IH]; [done|].
  intros H. cbn [occurs] in H. apply orb_false_iff in H as [Hx Ha].
  cbn [split_on]. rewrite Ascii.eqb_sym, Hx, (IH Ha). done.
Qed.

Lemma split_on_at_separator (sep : ascii) (a b : string) :
  occurs sep a = false ->
  split_on sep (a ++ String sep b) = a :: split_on sep b.
Proof.
  induction a as [|x a IH].
  - intros _. rewrite append_nil. cbn [split_on]. by rewrite Ascii.eqb_refl.
  - intros H. cbn [occurs] in H. apply orb_false_iff in H as [Hx Ha].
    rewrite append_cons. cbn [split_on]. rewrite Ascii.eqb_sym, Hx, (IH Ha). done.
Qed.

Lemma split_on_join (sep : ascii) (pieces : list string) :
  pieces <> [] ->
  Forall (fun p => occurs sep p = false) pieces ->
  split_on sep (join (String sep "") pieces) = pieces.
Proof.
  induction pieces as [|p rest IH]; [done|]. intros _ Hall.
  apply Forall_cons in Hall as [Hp Hrest].
  destruct rest as [|q rest]; [by apply split_on_free|].
  change (join (String sep "") (p :: q :: rest))
    with (p ++ String sep (join (String sep "") (q :: rest))).
  rewrite split_on_at_separator by done. f_equal. by apply IH.
Qed.

Lemma piece_not_empty (a b : string) (c : ascii) :
  negb (String.eqb (a ++ String c b) "") = true.
Proof. destruct a; reflexivity. Qed.

Lemma piece_parses_back (k v : string) :
  (decode (cut "=" (encode k ++ "=" ++ encode v)).1,
   decode (cut "=" (encode k ++ "=" ++ encode v)).2) = (k, v).
Proof.
  change (encode k ++ "=" ++ encode v) with (encode k ++ String "=" (encode v)).
  rewrite cut_at_separator by apply encode_no_separator.
  cbn [fst snd]. by rewrite !decode_encode.
Qed.

Lemma pieces_parse_back (params : URLSearchParams) :
  map (fun piece => (decode (cut "=" piece).1, decode (cut "=" piece).2))
      (List.filter (fun piece => negb (String.eqb piece ""))
         (map (fun kv => encode (fst kv) ++ "=" ++ encode (snd kv)) params))
  = params.
Proof.
  induction params as [|[k v] params IH]; [done|].
  cbn [map List.filter fst snd].
  change (encode k ++ "=" ++ encode v) with (encode k ++ String "=" (encode v)).
  rewrite piece_not_empty. cbn [map].
  change (encode k ++ String "=" (encode v)) with (encode k ++ "=" ++ encode v).
  by rewrite piece_parses_back, IH.
Qed.

(** Parsing what [URLSearchParams] serialized gives the arguments back, in
    order and unchanged. *)
Lemma parse_query_serialize (params : URLSearchParams) :
  parse_query (serialize params) = params.
Proof.
  unfold parse_query, serialize.
  destruct params as [|kv params]; [reflexivity|].
  rewrite split_on_join.
  - apply pieces_parse_back.
  - done.
  - apply List.Forall_forall. intros piece Hin.
    apply in_map_iff in Hin as ([k v] & <- & _). cbn [fst snd].
    rewrite !occurs_app.
    destruct (encode_no_separator k) as [-> _], (encode_no_separator v) as [-> _].
    reflexivity.
Qed.

Variable cfg : TripAdvisorConfig.

(** X15.  The round trip of the encoder: the query of the built URL, parsed the
    way the format is parsed, is the credential under [key] followed by the
    payload's defined fields with the texts of their values, whatever
    characters the key, the names and the values contain. *)
Theorem buildUrl_query_parses_back (endpoint : string) (payload : record) :
  exists q,
    buildUrl cfg endpoint payload
    = from_option id "undefined" (getBaseUrl cfg) ++ endpoint ++ "?" ++ q
    /\ parse_query q = ("key", apiKey cfg) :: query_of payload.
Proof.
  exists (serialize (("key", apiKey cfg) :: query_of payload)). split.
  - unfold buildUrl. rewrite forEach_append. reflexivity.
  - apply parse_query_serialize.
Qed.

End QueryFacts.

(** The parser on a query with an empty piece, an escape, a plus sign and a
    name without a value. *)
Example parse_query_sample :
  parse_query "a=1&&b=%41+x&c" = [("a", "1"); ("b", "A x"); ("c", "")].
Proof. reflexivity. Qed.

(* ===================================================================== *)
(** ** Properties of the facade *)
(* ===================================================================== *)

Section FacadeFacts.

Variable net : network.
Variable cfg : TripAdvisorConfig.
Variable LocationSearchPayloadSchema : ZodSchema record.
Variables LocationSearchResponseSchema LocationPhotosResponseSchema : ZodSchema value.
Variable in_TypeError : value -> string.

Lemma data_or_throw_trace (msg : string) (r : outcome * trace) :
  (data_or_throw in_TypeError msg r).2 = r.2.
Proof.
  destruct r as [[result|thrown] t]; [|done].
  cbn [data_or_throw]. by destruct (in_operator "data" result) as [[|]|].
Qed.

(** X16.  What [locationSearch] resolves with is the [data] property of the object
    the response schema returned for a body that came with a 2xx status and
    was not an API error; a result without that property is never handed
    out. *)
Theorem locationSearch_returns_validated_data
    (payload : record) (t : trace) (v : value) (t' : trace) :
  locationSearch net cfg LocationSearchPayloadSchema LocationSearchResponseSchema
    in_TypeError payload t
  = (Resolved v, t') ->
  exists validated k response data result,
    parse LocationSearchPayloadSchema (VObj payload) = inr validated
    /\ net (fetch_count (t ++ Call_buildUrl "/location/search" :: k)%list)
           (buildUrl cfg "/location/search" validated)
       = Responds response
    /\ ok response = true
    /\ body response = inr data
    /\ isApiError data = false
    /\ parse LocationSearchResponseSchema data = inr result
    /\ in_operator "data" result = Some true
    /\ v = get result "data".
Proof.
  unfold locationSearch.
  destruct (request net cfg "/location/search" payload LocationSearchPayloadSchema
              LocationSearchResponseSchema no_options t) as [[result|thrown] t1] eqn:Hreq;
    [|done].
  cbn [data_or_throw].
  destruct (in_operator "data" result) as [[|]|] eqn:Hin; try done.
  intros [= <- <-].
  unfold request in Hreq.
  destruct (parse LocationSearchPayloadSchema (VObj payload)) as [z|validated]; [done|].
  unfold sendWithRetry in Hreq.
  apply loop_resolved_by_validation in Hreq
    as (k & response & data & Hnet & Hok & Hb & Hno & Hp & _).
  exists validated, k, response, data, result.
  rewrite <- !app_assoc in Hnet. done.
Qed.

(** X17.  For a limit that is an integer JavaScript holds exactly (below
    2^53 in absolute value, so printed with all its digits), every exchange
    of [locationPhotos] asks for the photos path of the location, the
    identifier spliced into the path as it is, with the credential and the
    limit as the only arguments, by [GET], under the configured time limit;
    there are between one and [retries + 1] of them. *)
Theorem locationPhotos_requests_photos_url
    (locationId : string) (limit : Z) (t : trace) (r : Z) res (t' : trace) :
  - 2 ^ 53 < limit < 2 ^ 53 ->
  getRetries cfg = Some r ->
  0 <= r ->
  locationPhotos net cfg LocationPhotosResponseSchema in_TypeError locationId limit t
  = (res, t') ->
  exists new (j : nat),
    t' = (t ++ Call_buildUrl ("/location/" ++ locationId ++ "/photos") :: new)%list
    /\ Z.of_nat j <= r
    /\ List.filter is_fetch new
       = repeat
           (Call_fetch
              (from_option id "undefined" (getBaseUrl cfg)
               ++ ("/location/" ++ locationId ++ "/photos") ++ "?"
               ++ ("key=" ++ encode (apiKey cfg)) ++ "&"
               ++ ("limit=" ++ encode (pretty limit)))
              "GET" (getTimeout cfg))
           (S j).
Proof.
  intros _ Hretries Hr Hrun.
  assert (Htrace : (request net cfg ("/location/" ++ locationId ++ "/photos")
                      [("limit", VNum limit)] (object_schema photos_shape)
                      LocationPhotosResponseSchema no_options t).2 = t').
  { unfold locationPhotos in Hrun. rewrite <- (data_or_throw_trace "Invalid photos response format").
    by rewrite Hrun. }
  clear Hrun. unfold request in Htrace.
  cbn [parse object_schema validate photos_shape forbids_unknown fields andb
       check_fields assoc fname fmark fty has_type String.eqb Ascii.eqb Bool.eqb
       no_options method headers opt_timeout opt_retries opt_retryDelay
       from_option default] in Htrace.
  rewrite Hretries in Htrace.
  unfold sendWithRetry in Htrace. change 0 with (Z.of_nat 0) in Htrace.
  destruct (retry_loop _ _ _ _ _ _ _ _ _ _ _ _) as [res1 t1] eqn:Hloop.
  cbn [snd] in Htrace. subst t1.
  apply loop_shape in Hloop as (new & j & -> & Hj & Hf & _).
  - exists new, j. split; [by rewrite <- app_assoc|]. split; [lia|]. exact Hf.
  - lia.
  - unfold iterations. cbn [from_option]. lia.
Qed.

End FacadeFacts.

(** A search answered with [{ data: [] }]. *)
Lemma locationSearch_returns_validated_data_witness :
  exists validated k response data result,
    parse accept_record (VObj [("searchQuery", VStr "Paris")]) = inr validated
    /\ always 200 "OK" (VObj [("data", VArr [])])
         (fetch_count ([] ++ Call_buildUrl "/location/search" :: k)%list)
         (buildUrl cfg_k1 "/location/search" validated)
       = Responds response
    /\ ok response = true
    /\ body response = inr data
    /\ isApiError data = false
    /\ parse accept_all data = inr result
    /\ in_operator "data" result = Some true
    /\ VArr [] = get result "data".
Proof.
  apply (locationSearch_returns_validated_data (always 200 "OK" (VObj [("data", VArr [])]))
           cfg_k1 accept_record accept_all (fun _ => "not an object")
           [("searchQuery", VStr "Paris")] [] (VArr [])
           [Call_buildUrl "/location/search";
            Call_fetch "https://api.example/v1/location/search?key=k1&searchQuery=Paris"
              "GET" (Some 30000);
            Call_responseParse (VObj [("data", VArr [])])]).
  vm_compute. reflexivity.
Defined.

(** Five photos of location 123, the first exchange answered. *)
Lemma locationPhotos_requests_photos_url_witness :
  exists new (j : nat),
    [Call_buildUrl "/location/123/photos";
     Call_fetch "https://api.example/v1/location/123/photos?key=k1&limit=5"
       "GET" (Some 30000);
     Call_responseParse (VObj [("data", VArr [])])]
    = ([] ++ Call_buildUrl ("/location/" ++ "123" ++ "/photos") :: new)%list
    /\ Z.of_nat j <= 3
    /\ List.filter is_fetch new
       = repeat
           (Call_fetch
              (from_option id "undefined" (getBaseUrl cfg_k1)
               ++ ("/location/" ++ "123" ++ "/photos") ++ "?"
               ++ ("key=" ++ encode (apiKey cfg_k1)) ++ "&"
               ++ ("limit=" ++ encode (pretty 5)))
              "GET" (getTimeout cfg_k1))
           (S j).
Proof.
  apply (locationPhotos_requests_photos_url (always 200 "OK" (VObj [("data", VArr [])]))
           cfg_k1 accept_all (fun _ => "not an object") "123" 5 [] 3
           (Resolved (VArr []))).
  - lia.
  - reflexivity.
  - lia.
  - vm_compute. reflexivity.
Defined.
